(** * Scaffold runner: the two boilerplate Makefiles

    The repository holds two Makefiles, one per variant:
    [react_redux_boilerplate/Makefile] (JavaScript) and the Makefile of
    [react_redux_typescript_boilerplate] (TypeScript).  Each one declares the
    variables [NAME] and [PARENT_DIR], a handful of targets whose recipes are
    shell command lines, and a composite target [build].

    The embedding is shallow: the variables are Rocq values, a Makefile is the
    list of its rules, a recipe line is a small shell term ([&&], [|], simple
    commands), and running [make goal] is a function on an explicit world
    (a file system plus whatever the black-box tools keep outside of it).

    Interpreter conventions (GNU make run with its default flags):
    - prerequisites are brought up to date from left to right, each target at
      most once, then the recipe of the target itself runs;
    - every recipe line runs in a shell of its own that starts in the
      directory make was invoked in; make stops at the first line whose exit
      status is not zero;
    - no file named after a target exists in the invocation root, so every
      target reached is out of date and its recipe runs;
    - a path is a list of component names; [.] is dropped, [..] and symbolic
      links are not interpreted; [NAME] is one non-empty component.

    [mkdir], [cp], [mv], [cd] and [echo] are modelled on the file system
    (regular files and directories, no permission bits); [npx], [npm], [jq],
    [sponge] and [git] are black boxes: an arbitrary function that returns
    an exit status and a new world.  The shell is [/bin/sh] as make starts
    it: [a && b] stops at a failing [a], and a pipeline [a | b] has the exit
    status of [b]. *)

From Stdlib Require Import Strings.Ascii.
From stdpp Require Import base strings list gmap pretty.

(** ** Paths *)

(** An absolute, resolved path: the component names from [/] down. *)
Abbreviation path := (list string).

(** A path as it is written in a command line. *)
Record operand := Operand { absolute : bool; comps : list string }.

Definition rel (cs : list string) : operand := Operand false cs.

(** [d </> cs] is the text of [d] followed by [/c1/c2/...]. *)
Definition sub (d : operand) (cs : list string) : operand :=
  Operand (absolute d) (comps d ++ cs).
Infix "</>" := sub (at level 50, left associativity).

Definition resolve (cwd : path) (o : operand) : path :=
  (if absolute o then [] else cwd) ++ filter (λ c, c ≠ ".") (comps o).

Definition parent (p : path) : path := removelast p.

Definition basename (p : path) : string := List.last p "".

(** Reading a variable's text: the shell removes single quotes from a word
    ([unquote]); a directory text is cut at its slashes ([parse_dir]). *)
Fixpoint unquote (s : string) : string :=
  match s with
  | EmptyString => EmptyString
  | String c s' =>
      if Ascii.eqb c "'"%char then unquote s' else String c (unquote s')
  end.

Fixpoint split_slash (cur : string) (s : string) : list string :=
  match s with
  | EmptyString => [cur]
  | String c s' =>
      if Ascii.eqb c "/"%char then cur :: split_slash "" s'
      else split_slash (cur +:+ String c "") s'
  end.

Definition starts_with_slash (s : string) : bool :=
  match s with
  | String c _ => Ascii.eqb c "/"%char
  | EmptyString => false
  end.

Definition parse_dir (s : string) : operand :=
  Operand (starts_with_slash s) (filter (λ c, c ≠ "") (split_slash "" s)).

(** ** File system *)

Inductive node := File (data : string) | Dir.

Global Instance node_eq_dec : EqDecision node.
Proof. solve_decision. Defined.

Abbreviation fsmap := (gmap (list string) node).

(** [/] itself always is a directory. *)
Definition is_dir (fs : fsmap) (p : path) : bool :=
  match p with
  | [] => true
  | _ => bool_decide (fs !! p = Some Dir)
  end.

(** Why a command line ended with a non-zero status. *)
Inductive reason :=
  | ExitNonZero          (* a black-box tool reported failure *)
  | InvalidOption (o : string)
  | NoSuchFile           (* the source operand does not exist *)
  | NoSuchDirectory      (* cd: the directory does not exist *)
  | MissingDestDir       (* the directory to write into does not exist *)
  | NotADirectory        (* a path component is a regular file *)
  | IsADirectory         (* a directory where a regular file is needed *)
  | SameFile             (* source and destination are the same file *)
  | IntoItself           (* mv of a directory into itself *)
  | DestinationExists.   (* mv onto an existing entry it cannot replace *)

Inductive status := Ok | Fail (why : reason).

Global Instance reason_eq_dec : EqDecision reason.
Proof. solve_decision. Defined.
Global Instance status_eq_dec : EqDecision status.
Proof. solve_decision. Defined.

(** [mkdir -p]: walk down from [base], keep the directories that exist,
    create the missing ones, give up on a regular file in the way. *)
Fixpoint mkdir_p (fs : fsmap) (base : path) (cs : list string)
  : reason + fsmap :=
  match cs with
  | [] => inr fs
  | c :: cs' =>
      let p := base ++ [c] in
      match fs !! p with
      | Some Dir => mkdir_p fs p cs'
      | Some (File _) => inl NotADirectory
      | None => mkdir_p (<[p := Dir]> fs) p cs'
      end
  end.

(** [cp SRC DST] without options: one regular file, written over whatever
    regular file is at the destination. *)
Definition cp_target (fs : fsmap) (s d : path) : path :=
  if is_dir fs d then d ++ [basename s] else d.

Definition cp (fs : fsmap) (s d : path) : reason + fsmap :=
  match fs !! s with
  | None => inl NoSuchFile
  | Some Dir => inl IsADirectory
  | Some (File data) =>
      let t := cp_target fs s d in
      match fs !! t with
      | Some Dir => inl IsADirectory
      | _ =>
          if bool_decide (t = s) then inl SameFile
          else if is_dir fs (parent t) then inr (<[t := File data]> fs)
          else inl MissingDestDir
      end
  end.

(** [mv]: the options it knows that take no argument. *)
Definition mv_options : list string :=
  ["-b"; "-f"; "-i"; "-n"; "-T"; "-u"; "-v"; "-Z"].

Fixpoint strip_prefix (pre p : path) : option path :=
  match pre, p with
  | [], _ => Some p
  | a :: pre', b :: p' => if bool_decide (a = b) then strip_prefix pre' p' else None
  | _ :: _, [] => None
  end.

(** Re-root the subtree at [s] to [t]. *)
Definition rename_tree (s t : path) (fs : fsmap) : fsmap :=
  list_to_map
    (map (λ kv : path * node,
            match strip_prefix s kv.1 with
            | Some rest => (t ++ rest, kv.2)
            | None => kv
            end)
         (map_to_list fs)).

Definition has_children (fs : fsmap) (p : path) : bool :=
  existsb (λ kv : path * node,
     match strip_prefix p kv.1 with Some (_ :: _) => true | _ => false end)
     (map_to_list fs).

Definition mv (fs : fsmap) (opts : list string) (s d : path) : reason + fsmap :=
  match list_find (λ o, o ∉ mv_options) opts with
  | Some (_, o) => inl (InvalidOption o)
  | None =>
      match fs !! s with
      | None => inl NoSuchFile
      | Some e =>
          let t := cp_target fs s d in
          if bool_decide (t = s) then inl SameFile
          else if bool_decide (is_Some (strip_prefix s t)) then inl IntoItself
          else if negb (is_dir fs (parent t)) then inl MissingDestDir
          else match fs !! t, e with
               | None, _ => inr (rename_tree s t fs)
               | Some (File _), File _ => inr (rename_tree s t (delete t fs))
               | Some Dir, Dir =>
                   if has_children fs t then inl DestinationExists
                   else inr (rename_tree s t (delete t fs))
               | Some (File _), Dir => inl NotADirectory
               | Some Dir, File _ => inl IsADirectory
               end
      end
  end.

(** ** Worlds and black-box tools *)

(** What a run acts on: the file system, and the state the black-box tools
    keep outside of it (package registry, network, ...). *)
Record world (X : Type) := World { files : fsmap; outside : X }.
Arguments World {X} _ _.
Arguments files {X} _.
Arguments outside {X} _.

Definition with_files {X} (w : world X) (fs : fsmap) : world X :=
  World fs (outside w).

(** A black-box tool: program, arguments and working directory in, exit
    status ([true] for zero) and new world out. *)
Definition oracle (X : Type) : Type :=
  string → list string → path → world X → bool * world X.

(** ** Shell command lines *)

Inductive simple :=
  | Cd (d : operand)
  | Echo (msg : string)
  | Mkdir_p (d : operand)
  | Cp (src dst : operand)
  | Mv (opts : list string) (src dst : operand)
  | Tool (prog : string) (args : list string).

Inductive cmd :=
  | Run (s : simple)
  | AndIf (a b : cmd)      (* a && b *)
  | Pipe (a b : cmd).      (* a | b *)

Coercion Run : simple >-> cmd.

Declare Scope sh_scope.
Delimit Scope sh_scope with sh.
Bind Scope sh_scope with cmd.
Notation "a &&& b" := (AndIf a b) (at level 40, left associativity) : sh_scope.
Notation "a '|.' b" := (Pipe a b) (at level 35, right associativity) : sh_scope.

Global Instance operand_eq_dec : EqDecision operand.
Proof. solve_decision. Defined.
Global Instance simple_eq_dec : EqDecision simple.
Proof. solve_decision. Defined.
Global Instance cmd_eq_dec : EqDecision cmd.
Proof. solve_decision. Defined.

(** [cd] and [echo] are shell built-ins; everything else is a program the
    shell starts. *)
Definition external (s : simple) : bool :=
  match s with
  | Cd _ | Echo _ => false
  | _ => true
  end.

(** One simple command that was started: where, which, and how it ended. *)
Record event := Event { ev_cwd : path; ev_cmd : simple; ev_status : status }.

Global Instance event_eq_dec : EqDecision event.
Proof. solve_decision. Defined.

Record shell_result (X : Type) := ShellResult {
  sh_status : status;
  sh_cwd : path;
  sh_world : world X;
  sh_events : list event
}.
Arguments ShellResult {X} _ _ _ _.
Arguments sh_status {X} _.
Arguments sh_cwd {X} _.
Arguments sh_world {X} _.
Arguments sh_events {X} _.

Definition of_fs {X} (w : world X) (r : reason + fsmap) : status * world X :=
  match r with
  | inl why => (Fail why, w)
  | inr fs => (Ok, with_files w fs)
  end.

Section Exec.
Context {X : Type} (tool : oracle X).

Definition exec_simple (cwd : path) (w : world X) (s : simple)
  : status * path * world X :=
  match s with
  | Cd d =>
      let p := resolve cwd d in
      if is_dir (files w) p then (Ok, p, w) else (Fail NoSuchDirectory, cwd, w)
  | Echo _ => (Ok, cwd, w)
  | Mkdir_p d =>
      let '(st, w') :=
        of_fs w (mkdir_p (files w) (if absolute d then [] else cwd)
                         (filter (λ c, c ≠ ".") (comps d))) in
      (st, cwd, w')
  | Cp src dst =>
      let '(st, w') :=
        of_fs w (cp (files w) (resolve cwd src) (resolve cwd dst)) in
      (st, cwd, w')
  | Mv opts src dst =>
      let '(st, w') :=
        of_fs w (mv (files w) opts (resolve cwd src) (resolve cwd dst)) in
      (st, cwd, w')
  | Tool prog args =>
      let '(zero, w') := tool prog args cwd w in
      (if zero then Ok else Fail ExitNonZero, cwd, w')
  end.

(** [a && b] runs [b] only after [a] ended with status zero.  [a | b] runs
    both sides, each in a subshell, and its status is the status of [b]
    alone. *)
Fixpoint exec (c : cmd) (cwd : path) (w : world X) : shell_result X :=
  match c with
  | Run s =>
      let '(st, cwd', w') := exec_simple cwd w s in
      ShellResult st cwd' w' [Event cwd s st]
  | AndIf a b =>
      let ra := exec a cwd w in
      match sh_status ra with
      | Ok =>
          let rb := exec b (sh_cwd ra) (sh_world ra) in
          ShellResult (sh_status rb) (sh_cwd rb) (sh_world rb)
                      (sh_events ra ++ sh_events rb)
      | Fail _ => ra
      end
  | Pipe a b =>
      let ra := exec a cwd w in
      let rb := exec b cwd (sh_world ra) in
      ShellResult (sh_status rb) cwd (sh_world rb)
                  (sh_events ra ++ sh_events rb)
  end.
End Exec.

(** ** Make *)

Record rule := Rule {
  target : string;
  prereqs : list string;
  recipe : list cmd
}.

(** A step as the runner sees it: a target and its recipe lines. *)
Abbreviation step := (string * list cmd)%type.

Inductive verdict :=
  | Success
  | StepFailed (t : string) (line : cmd) (why : reason)
  | NoRule (goal : string).

Global Instance verdict_eq_dec : EqDecision verdict.
Proof. solve_decision. Defined.

(** The result of a run: how it ended, the world it left, and for every step
    that was started, in order, the commands it started. *)
Record outcome (X : Type) := Outcome {
  result : verdict;
  final : world X;
  log : list (string * list event)
}.
Arguments Outcome {X} _ _ _.
Arguments result {X} _.
Arguments final {X} _.
Arguments log {X} _.

Definition find_rule (rs : list rule) (t : string) : option rule :=
  List.find (λ r, bool_decide (target r = t)) rs.

(** The targets to remake for [g], in the order make remakes them:
    prerequisites first, left to right, nothing twice. *)
Fixpoint plan_goal (fuel : nat) (rs : list rule) (acc : list string)
    (g : string) : option (list string) :=
  match fuel with
  | 0 => None
  | S n =>
      if bool_decide (g ∈ acc) then Some acc
      else match find_rule rs g with
           | None => None
           | Some r =>
               match foldl (λ o p, a ← o; plan_goal n rs a p)
                           (Some acc) (prereqs r) with
               | Some acc' => Some (acc' ++ [g])
               | None => None
               end
           end
  end.

Definition plan (rs : list rule) (g : string) : option (list string) :=
  plan_goal (S (length rs)) rs [] g.

Definition steps_of (rs : list rule) (ts : list string) : list step :=
  omap (λ t, r ← find_rule rs t; Some (t, recipe r)) ts.

Section Make.
Context {X : Type} (tool : oracle X).

(** The lines of one recipe, each in a fresh shell started in [root]. *)
Fixpoint run_recipe (root : path) (ls : list cmd) (w : world X)
  : option (cmd * reason) * world X * list event :=
  match ls with
  | [] => (None, w, [])
  | l :: ls' =>
      let r := exec tool l root w in
      match sh_status r with
      | Fail why => (Some (l, why), sh_world r, sh_events r)
      | Ok =>
          let '(v, w', evs) := run_recipe root ls' (sh_world r) in
          (v, w', sh_events r ++ evs)
      end
  end.

Fixpoint run_steps (root : path) (ss : list step) (w : world X)
  : outcome X :=
  match ss with
  | [] => Outcome Success w []
  | (t, ls) :: ss' =>
      let '(v, w', evs) := run_recipe root ls w in
      match v with
      | Some (l, why) => Outcome (StepFailed t l why) w' [(t, evs)]
      | None =>
          let o := run_steps root ss' w' in
          Outcome (result o) (final o) ((t, evs) :: log o)
      end
  end.

Definition make (rs : list rule) (root : path) (goal : string)
    (w : world X) : outcome X :=
  match plan rs goal with
  | None => Outcome (NoRule goal) w []
  | Some ts => run_steps root (steps_of rs ts) w
  end.
End Make.

(** ** The Makefiles *)

(** The two variables, as the shell receives them in a command line. *)
Record vars := Vars { NAME : string; PARENT_DIR : operand }.

(** [make TARGET NAME=... PARENT_DIR=...]: each assignment may be left out. *)
Record cmdline := CmdLine {
  given_NAME : option string;
  given_PARENT_DIR : option string
}.

Record makefile := Makefile {
  NAME_text : string;            (* NAME = ... *)
  PARENT_DIR_text : string;      (* PARENT_DIR = ... *)
  rules : vars → list rule
}.

Definition vars_of (mf : makefile) (cl : cmdline) : vars :=
  Vars (unquote (default (NAME_text mf) (given_NAME cl)))
       (parse_dir (unquote (default (PARENT_DIR_text mf) (given_PARENT_DIR cl)))).

Definition npx (args : list string) : cmd := Tool "/usr/bin/npx" args.
Definition npm_install (pkgs : list string) : cmd := Tool "npm" ("install" :: pkgs).
Definition jq (args : list string) : cmd := Tool "jq" args.
Definition sponge (f : string) : cmd := Tool "sponge" [f].
Definition git (args : list string) : cmd := Tool "git" args.

Definition help_lines : list cmd :=
  [ Run (Echo "react-redux initial setup");
    Run (Echo "dependencies: npx, jq, sponge");
    Run (Echo "run: make build NAME=name PARENT_DIR=parent_dir") ].

(** Both Makefiles have the same [configure-prettier] recipe. *)
Definition configure_prettier_lines (N : string) : list cmd :=
  [ (Cd (rel [N])
       &&& npm_install ["husky"; "lint-staged"; "prettier"]
       &&& jq ["-s"; ".[0] * .[1]"; "package.json"; "../prettier-config.json"]
           |. sponge "package.json")%sh;
    (Cd (rel [N])
       &&& npx ["husky"; "add"; ".husky/pre-commit"; "npx lint-staged"])%sh ].

Definition commit_message : string := "Initial setup of Redux and friends".

Definition git_lines (N : string) (P : operand) : list cmd :=
  [ (Cd (P </> [N]) &&& git ["init"])%sh;
    (Cd (P </> [N]) &&& git ["add"; "."])%sh;
    (Cd (P </> [N]) &&& git ["commit"; "-m" +:+ commit_message])%sh ].

Module Js.
(** [react_redux_boilerplate/Makefile] *)
Definition rules (v : vars) : list rule :=
  let N := NAME v in
  let P := PARENT_DIR v in
  [ Rule "help" [] help_lines;
    Rule "create-react-app" []
      [ npx ["create-react-app"; N; "--use-npm"] ];
    Rule "configure-prettier" [] (configure_prettier_lines N);
    Rule "install-bootstrap" []
      [ (Cd (rel [N]) &&& npm_install ["react-bootstrap"; "bootstrap"])%sh ];
    Rule "install-redux" []
      [ (Cd (rel [N]) &&& npm_install ["redux"; "react-redux"])%sh ];
    Rule "install-router" []
      [ (Cd (rel [N]) &&& npm_install ["react-router-dom"])%sh ];
    Rule "install-styled-components" []
      [ (Cd (rel [N]) &&& npm_install ["styled-components"])%sh ];
    Rule "copy-files" []
      [ Run (Mkdir_p (rel [N; "src"; "components"]));
        Run (Mkdir_p (rel [N; "src"; "actions"]));
        Run (Mkdir_p (rel [N; "src"; "reducers"]));
        Run (Cp (rel ["boilerplate-action.js"]) (rel [N; "src"; "actions"; "index.js"]));
        Run (Cp (rel ["boilerplate-reducer.js"]) (rel [N; "src"; "reducers"; "index.js"]));
        Run (Cp (rel ["boilerplate-app.js"]) (rel [N; "src"; "App.js"]));
        Run (Cp (rel ["boilerplate-index.js"]) (rel [N; "src"; "index.js"])) ];
    Rule "git-commit" []
      (Run (Mv ["-r"] (rel [N]) (P </> ["."])) :: git_lines N P);
    Rule "build"
      [ "create-react-app"; "configure-prettier"; "install-redux";
        "install-router"; "install-bootstrap"; "install-styled-components";
        "copy-files"; "git-commit" ]
      [ Run (Echo "success") ] ].

Definition mf : makefile := Makefile "'my_project'" "." rules.
End Js.

Module Ts.
(** The Makefile of [react_redux_typescript_boilerplate].  Its
    [configure-prettier] rule is kept, under the comment "removed -- husky
    v 5+ fails to create git hook", but [build] no longer names it. *)
Definition rules (v : vars) : list rule :=
  let N := NAME v in
  let P := PARENT_DIR v in
  [ Rule "help" [] help_lines;
    Rule "create-react-app" []
      [ npx ["create-react-app"; N; "--use-npm"; "--template"; "typescript"] ];
    Rule "configure-prettier" [] (configure_prettier_lines N);
    Rule "install-bootstrap" []
      [ (Cd (rel [N])
           &&& npm_install ["react-bootstrap"; "bootstrap"; "--legacy-peer-deps"])%sh ];
    Rule "install-redux" []
      [ (Cd (rel [N])
           &&& npm_install ["redux"; "react-redux"; "@reduxjs/toolkit";
                            "redux-devtools-extension"; "--legacy-peer-deps"])%sh ];
    Rule "install-router" []
      [ (Cd (rel [N]) &&& npm_install ["react-router-dom"; "--legacy-peer-deps"])%sh ];
    Rule "install-styled-components" []
      [ (Cd (rel [N]) &&& npm_install ["styled-components"; "--legacy-peer-deps"])%sh ];
    Rule "copy-files" []
      [ Run (Mkdir_p (rel [N; "src"; "components"]));
        Run (Mkdir_p (rel [N; "src"; "app"]));
        Run (Cp (rel ["boilerplate-store.ts"]) (rel [N; "src"; "app"; "store.tsx"]));
        Run (Cp (rel ["boilerplate-hooks.ts"]) (rel [N; "src"; "app"; "hooks.tsx"]));
        Run (Cp (rel ["boilerplate-app.tsx"]) (rel [N; "src"; "App.tsx"]));
        Run (Cp (rel ["boilerplate-index.tsx"]) (rel [N; "src"; "index.tsx"])) ];
    Rule "git-commit" []
      (Run (Mv [] (rel [N]) P) :: git_lines N P);
    Rule "build"
      [ "create-react-app"; "install-redux"; "install-router";
        "install-bootstrap"; "install-styled-components";
        "copy-files"; "git-commit" ]
      [ Run (Echo "success") ] ].

Definition mf : makefile := Makefile "'my_project'" "." rules.
End Ts.

Inductive variant := JavaScript | TypeScript.

Definition makefile_of (k : variant) : makefile :=
  match k with
  | JavaScript => Js.mf
  | TypeScript => Ts.mf
  end.

(** ** Reading a run *)

(** The steps that were started, in order, and all commands started. *)
Definition started {X} (o : outcome X) : list string := map fst (log o).

Definition events {X} (o : outcome X) : list event := concat (map snd (log o)).

(** The generated project root while it sits in the invocation root, and
    after the move. *)
Definition project (root : path) (v : vars) : path :=
  resolve root (rel [NAME v]).

Definition moved_project (root : path) (v : vars) : path :=
  resolve root (PARENT_DIR v </> [NAME v]).

(** The prerequisites of [build], as each Makefile lists them. *)
Definition build_order (k : variant) : list string :=
  match k with
  | JavaScript =>
      [ "create-react-app"; "configure-prettier"; "install-redux";
        "install-router"; "install-bootstrap"; "install-styled-components";
        "copy-files"; "git-commit" ]
  | TypeScript =>
      [ "create-react-app"; "install-redux"; "install-router";
        "install-bootstrap"; "install-styled-components";
        "copy-files"; "git-commit" ]
  end.

(** The five kinds of step of the system overview. *)
Inductive phase := Skeleton | Packages | Formatting | Templates | Finalize.

Global Instance phase_eq_dec : EqDecision phase.
Proof. solve_decision. Defined.

Definition phase_of (t : string) : option phase :=
  if bool_decide (t = "create-react-app") then Some Skeleton
  else if bool_decide (t ∈ ["install-redux"; "install-router";
                            "install-bootstrap"; "install-styled-components"])
  then Some Packages
  else if bool_decide (t = "configure-prettier") then Some Formatting
  else if bool_decide (t = "copy-files") then Some Templates
  else if bool_decide (t = "git-commit") then Some Finalize
  else None.

(** The order the overview lists the kinds in: packages before formatting. *)
Definition listed_rank (p : phase) : nat :=
  match p with
  | Skeleton => 0 | Packages => 1 | Formatting => 2 | Templates => 3
  | Finalize => 4
  end.

(** The order [build] names them in: formatting before packages. *)
Definition build_rank (p : phase) : nat :=
  match p with
  | Skeleton => 0 | Formatting => 1 | Packages => 2 | Templates => 3
  | Finalize => 4
  end.

Fixpoint nondecreasing (ns : list nat) : bool :=
  match ns with
  | a :: (b :: _) as rest => (a <=? b) && nondecreasing rest
  | _ => true
  end.

Definition in_order (rank : phase → nat) (ts : list string) : Prop :=
  nondecreasing (map rank (omap phase_of ts)) = true.

(** The commands of the formatting configuration: the prettier/husky
    installation, the manifest merge and the hook registration. *)
Definition formatting_command (s : simple) : bool :=
  match s with
  | Tool prog args =>
      bool_decide (prog = "jq") || bool_decide (prog = "sponge")
      || (bool_decide (prog = "npm") && bool_decide ("prettier" ∈ args))
      || (bool_decide (prog = "/usr/bin/npx") && bool_decide (head args = Some "husky"))
  | _ => false
  end.

Definition is_git (s : simple) : bool :=
  match s with
  | Tool prog _ => bool_decide (prog = "git")
  | _ => false
  end.

(** Working directories.  [claimed_workdirs] is the rule of the component
    contract: the invocation root for the first step, the generated project
    root (before or after the move) for all others.  [recipe_workdir] is
    what the recipes do. *)
Definition claimed_workdirs (root : path) (v : vars) (t : string) : list path :=
  if bool_decide (t = "create-react-app") then [root]
  else [project root v; moved_project root v].

Definition recipe_workdir (root : path) (v : vars) (t : string) (s : simple)
  : path :=
  if bool_decide (t ∈ ["create-react-app"; "copy-files"]) then root
  else if bool_decide (t = "git-commit") then
    match s with
    | Mv _ _ _ => root
    | _ => moved_project root v
    end
  else project root v.

(** Every program a step of the run started was started in a directory the
    rule allows. *)
Definition runs_within {X} (allowed : string → list path) (o : outcome X) : Prop :=
  Forall (λ te : string * list event,
            Forall (λ e, external (ev_cmd e) = false ∨ ev_cwd e ∈ allowed te.1) te.2)
         (log o).

Definition runs_at {X} (place : string → simple → path) (o : outcome X) : Prop :=
  Forall (λ te : string * list event,
            Forall (λ e, external (ev_cmd e) = false
                         ∨ ev_cwd e = place te.1 (ev_cmd e)) te.2)
         (log o).

(** The four template copies of each variant: source file in the invocation
    root, destination below the project root. *)
Definition templates (k : variant) : list (string * list string) :=
  match k with
  | JavaScript =>
      [ ("boilerplate-action.js", ["src"; "actions"; "index.js"]);
        ("boilerplate-reducer.js", ["src"; "reducers"; "index.js"]);
        ("boilerplate-app.js", ["src"; "App.js"]);
        ("boilerplate-index.js", ["src"; "index.js"]) ]
  | TypeScript =>
      [ ("boilerplate-store.ts", ["src"; "app"; "store.tsx"]);
        ("boilerplate-hooks.ts", ["src"; "app"; "hooks.tsx"]);
        ("boilerplate-app.tsx", ["src"; "App.tsx"]);
        ("boilerplate-index.tsx", ["src"; "index.tsx"]) ]
  end.

(** The operands of the [mkdir -p] lines of [copy-files], below the project
    root. *)
Definition made_dirs (k : variant) : list (list string) :=
  match k with
  | JavaScript => [ ["src"; "components"]; ["src"; "actions"]; ["src"; "reducers"] ]
  | TypeScript => [ ["src"; "components"]; ["src"; "app"] ]
  end.

(** The shape of the [copy-files] recipe: the [mkdir -p] lines, then the
    [cp] lines, one command per line. *)
Definition copy_commands (N : string) (dirs : list (list string))
    (copies : list (string * list string)) : list simple :=
  ((λ D, Mkdir_p (rel (N :: D))) <$> dirs)
  ++ ((λ c : string * list string, Cp (rel [c.1]) (rel (N :: c.2))) <$> copies).

Definition copy_lines (N : string) (dirs : list (list string))
    (copies : list (string * list string)) : list cmd :=
  Run <$> copy_commands N dirs copies.

(** What the two halves do to the file system: [mkdir -p] for every
    directory [D] below [nm] in [root], then [cp] of [root/f] to [P/D]. *)
Fixpoint mkdir_all (fs : fsmap) (root : path) (nm : list string)
    (dirs : list (list string)) : reason + fsmap :=
  match dirs with
  | [] => inr fs
  | D :: ds =>
      match mkdir_p fs root (nm ++ D) with
      | inl why => inl why
      | inr fs' => mkdir_all fs' root nm ds
      end
  end.

Fixpoint cp_all (fs : fsmap) (root P : path)
    (copies : list (string * list string)) : reason + fsmap :=
  match copies with
  | [] => inr fs
  | c :: cs =>
      match cp fs (root ++ [c.1]) (P ++ c.2) with
      | inl why => inl why
      | inr fs' => cp_all fs' root P cs
      end
  end.

(** Every directory the [mkdir -p] lines make sure of, below the project
    root (the project root itself comes on top). *)
Definition ensured_dirs (k : variant) : list (list string) :=
  ["src"] :: made_dirs k.

(** What the two tables must satisfy for the recipe to make sense: no [.]
    among the components, every destination at least two levels below the
    project root and inside a directory that one of the [mkdir -p] lines
    makes, no destination that is itself one of those directories, and no
    two copies that could write to the same place. *)
Definition separate (c c2 : string * list string) : Prop :=
  c2.2 ≠ c.2 ∧ c2.2 ≠ c.2 ++ [c.1] ∧ c2.2 ++ [c2.1] ≠ c.2.

Fixpoint all_separate (cs : list (string * list string)) : Prop :=
  match cs with
  | [] => True
  | c :: cs' => Forall (separate c) cs' ∧ all_separate cs'
  end.

Record well_formed_tables (dirs : list (list string))
    (copies : list (string * list string)) : Prop := {
  wf_dirs_plain : Forall (λ D, "." ∉ D) dirs;
  wf_copies_plain :
    Forall (λ c : string * list string, c.1 ≠ "." ∧ "." ∉ c.2) copies;
  wf_deep : Forall (λ c : string * list string, 2 ≤ length c.2) copies;
  wf_covered :
    Forall (λ c : string * list string,
              Exists (λ D, removelast c.2 `prefix_of` D) dirs) copies;
  wf_not_dirs :
    Forall (λ c : string * list string,
              Forall (λ D, ¬ c.2 `prefix_of` D) dirs) copies;
  wf_separate : all_separate copies
}.

Definition is_file (fs : fsmap) (p : path) : Prop :=
  ∃ data, fs !! p = Some (File data).

(** The arguments [create-react-app] hands to [/usr/bin/npx]. *)
Definition generator_args (k : variant) (v : vars) : list string :=
  match k with
  | JavaScript => ["create-react-app"; NAME v; "--use-npm"]
  | TypeScript =>
      ["create-react-app"; NAME v; "--use-npm"; "--template"; "typescript"]
  end.

(** ** A small world to run the Makefiles in *)

Module Demo.
(** A generator that refuses an existing directory and otherwise writes a
    minimal skeleton; a merge utility that may fail; all other tools
    succeed and change nothing. *)
Definition tools (jq_ok : bool) : oracle unit := λ prog args cwd w,
  match prog, args with
  | "/usr/bin/npx", "create-react-app" :: n :: _ =>
      let p := resolve cwd (rel [n]) in
      if is_dir (files w) p then (false, w)
      else (true, with_files w
              (<[p ++ ["src"; "index.js"] := File "skeleton"]>
               (<[p ++ ["package.json"] := File "{}"]>
                (<[p ++ ["src"] := Dir]>
                 (<[p := Dir]> (files w))))))
  | "jq", _ => (jq_ok, w)
  | _, _ => (true, w)
  end.

Definition root : path := ["work"].

Definition v : vars := Vars "demo" (parse_dir "/tmp").

Definition disk (k : variant) : fsmap :=
  list_to_map
    ([ (["work"], Dir); (["tmp"], Dir) ]
     ++ map (λ t : string * list string, (["work"; t.1], File t.1)) (templates k)).

Definition w0 (k : variant) : world unit := World (disk k) tt.

(** The same disk with the project directory already there. *)
Definition w_taken (k : variant) : world unit :=
  World (<[ ["work"; "demo"; "package.json"] := File "mine" ]>
         (<[ ["work"; "demo"] := Dir ]> (disk k))) tt.

(** The same disk after skeleton generation: the project directory with a
    manifest and an entry point of the generator's own. *)
Definition w_skeleton (k : variant) : world unit :=
  World (<[ ["work"; "demo"; "src"; "index.js"] := File "skeleton" ]>
         (<[ ["work"; "demo"; "package.json"] := File "{}" ]>
          (<[ ["work"; "demo"; "src"] := Dir ]>
           (<[ ["work"; "demo"] := Dir ]> (disk k))))) tt.
End Demo.

(** ** Where a command line can start its commands

    Read off the line alone: every simple command with the directory the
    shell is in when it reaches it, and the directory the line ends in. *)
Fixpoint places (c : cmd) (cwd : path) : list (path * simple) * path :=
  match c with
  | Run s =>
      ([(cwd, s)], match s with Cd d => resolve cwd d | _ => cwd end)
  | AndIf a b =>
      let pa := places a cwd in
      let pb := places b pa.2 in
      (pa.1 ++ pb.1, pb.2)
  | Pipe a b => ((places a cwd).1 ++ (places b cwd).1, cwd)
  end.

Definition step_places (root : path) (ss : list step)
  : list (string * path * simple) :=
  ss ≫= λ '(t, ls), ls ≫= λ l, (λ ps : path * simple, (t, ps.1, ps.2)) <$> (places l root).1.

(** The simple commands of a line, and those of them whose exit status the
    line does not look at: the ones on the left of a pipe. *)
Fixpoint simples (c : cmd) : list simple :=
  match c with
  | Run s => [s]
  | AndIf a b => simples a ++ simples b
  | Pipe a b => simples a ++ simples b
  end.

Fixpoint masked (c : cmd) : list simple :=
  match c with
  | Run _ => []
  | AndIf a b => masked a ++ masked b
  | Pipe a b => simples a ++ masked b
  end.

Definition masked_in (ss : list step) : list simple :=
  ss ≫= λ '(_, ls), ls ≫= masked.

(** The steps [make build] goes through. *)
Definition build_steps (k : variant) (v : vars) : list step :=
  steps_of (rules (makefile_of k) v) (build_order k ++ ["build"]).

(** ** The commands of a run, read off the recipes *)

(** All simple commands of the steps, in the order the lines name them. *)
Definition commands (ss : list step) : list simple :=
  ss ≫= λ '(_, ls), ls ≫= simples.

(** A line whose pipes have one simple command on the left, as all pipes of
    the two Makefiles have. *)
Fixpoint tame (c : cmd) : bool :=
  match c with
  | Run _ => true
  | AndIf a b => tame a && tame b
  | Pipe (Run _) b => tame b
  | Pipe _ _ => false
  end.

(** What tells two program calls of the recipes apart without looking at
    the variables: the program with its first argument (for [npm install]
    also the first package), the directory below the project for [mkdir],
    the template for [cp]. *)
Definition command_key (s : simple) : list string :=
  match s with
  | Cd _ => ["cd"]
  | Echo msg => ["echo"; msg]
  | Mkdir_p d => "mkdir" :: tail (comps d)
  | Cp src _ => "cp" :: comps src
  | Mv _ _ _ => ["mv"]
  | Tool prog args =>
      prog :: take 1 args
      ++ (if bool_decide (head args = Some "install") then take 1 (drop 1 args)
          else [])
  end.

(** The directory a line changes to before anything else, if it starts
    with [cd]. *)
Fixpoint head_cd (c : cmd) : option operand :=
  match c with
  | Run (Cd d) => Some d
  | AndIf a _ => head_cd a
  | _ => None
  end.

(** The targets that work inside the project directory. *)
Definition project_targets : list string :=
  [ "configure-prettier"; "install-bootstrap"; "install-redux";
    "install-router"; "install-styled-components" ].

(** What [copy-files] may do to a file system, whether it gets to the end
    or not: every entry that exists stays as it is, except that a regular
    file where a template goes ([P/D], or [P/D/f] when [P/D] is a
    directory) may get new content. *)
Definition landing_places (P : path) (copies : list (string * list string))
  : list path :=
  copies ≫= λ c, [P ++ c.2; (P ++ c.2) ++ [c.1]].

Definition only_overwrites (T : list path) (fs fs' : fsmap) : Prop :=
  ∀ p e, fs !! p = Some e →
         fs' !! p = Some e
         ∨ (p ∈ T ∧ is_file fs p ∧ is_file fs' p).

(** A generator that takes a project directory that exists when nothing is
    in it, and refuses one that has content; the other tools as in the demo. *)
Definition accepting_tools : oracle unit := λ prog args cwd w,
  match prog, args with
  | "/usr/bin/npx", "create-react-app" :: n :: _ =>
      let p := resolve cwd (rel [n]) in
      if has_children (files w) p then (false, w)
      else (true, with_files w
              (<[p ++ ["src"; "index.js"] := File "skeleton"]>
               (<[p ++ ["package.json"] := File "{}"]>
                (<[p ++ ["src"] := Dir]>
                 (<[p := Dir]> (files w))))))
  | _, _ => Demo.tools true prog args cwd w
  end.

(** The demo disk with an empty directory where the project is to go. *)
Definition w_empty_project (k : variant) : world unit :=
  World (<[ ["work"; "demo"] := Dir ]> (Demo.disk k)) tt.

(** The demo disk after skeleton generation, with a directory where the
    application template is to go. *)
Definition w_app_dir : world unit :=
  with_files (Demo.w_skeleton JavaScript)
    (<[ ["work"; "demo"; "src"; "App.js"] := Dir ]>
     (files (Demo.w_skeleton JavaScript))).

(** ** The templates that are programs: the reducer and the state mapping

    [boilerplate-reducer.js] and the [mapStateToProps] of [boilerplate-app.js]
    work on JavaScript values.  A value is a primitive or a reference into a
    store of objects and arrays; numbers are left out.  Objects have no
    accessors and nothing of interest on their prototypes, so reading a
    property that is not there gives [undefined]; the order of the keys of an
    object is not kept. *)

Inductive jsval :=
  | JUndefined
  | JNull
  | JBool (b : bool)
  | JStr (s : string)
  | JRef (a : nat).

Global Instance jsval_eq_dec : EqDecision jsval.
Proof. solve_decision. Defined.

Inductive cell :=
  | CObj (fields : gmap string jsval)
  | CArr (elems : list jsval).

Abbreviation heap := (gmap nat cell).

Inductive js_error := TypeError.

(** [a === b] on these values. *)
Definition strict_eq (a b : jsval) : bool := bool_decide (a = b).

(** A new object gets an address that is not in use. *)
Definition alloc (h : heap) (c : cell) : nat * heap :=
  let a := fresh (dom h) in (a, <[a := c]> h).

Fixpoint chars (s : string) : list jsval :=
  match s with
  | EmptyString => []
  | String c s' => JStr (String c EmptyString) :: chars s'
  end.

Definition index_keys (vs : list jsval) : gmap string jsval :=
  list_to_map (imap (λ i v, (pretty i, v)) vs).

(** The own enumerable properties of a value, as [{...v}] copies them: the
    fields of an object, the elements of an array or the characters of a
    string under their indices, nothing for the other primitives. *)
Definition own_props (h : heap) (v : jsval) : gmap string jsval :=
  match v with
  | JRef a =>
      match h !! a with
      | Some (CObj fields) => fields
      | Some (CArr elems) => index_keys elems
      | None => ∅
      end
  | JStr s => index_keys (chars s)
  | _ => ∅
  end.

(** [v.k] for a name [k] that is not built in ([type] and [stateItem] are
    the names the code reads): a [TypeError] on [undefined] and [null]. *)
Definition get_prop (h : heap) (v : jsval) (k : string) : js_error + jsval :=
  match v with
  | JUndefined | JNull => inl TypeError
  | _ => inr (default JUndefined (own_props h v !! k))
  end.

(** [const initialState = { stateItem: [] }], evaluated when the module is
    loaded. *)
Definition load_reducer (h : heap) : jsval * heap :=
  let '(items, h1) := alloc h (CArr []) in
  let '(init, h2) := alloc h1 (CObj {["stateItem" := JRef items]}) in
  (JRef init, h2).

Section Reducer.
(** [ACTION] is imported from [../actions], which is not at hand;
    [initialState] is the value [load_reducer] made. *)
Context (ACTION initialState : jsval).

(** [export default function mysite(state = initialState, action)] *)
Definition mysite (h : heap) (state action : jsval)
  : js_error + (jsval * heap) :=
  let state := match state with JUndefined => initialState | _ => state end in
  match get_prop h action "type" with
  | inl e => inl e
  | inr type =>
      if strict_eq type ACTION then
        (* return { ...state, stateItem: action.stateItem } *)
        match get_prop h action "stateItem" with
        | inl e => inl e
        | inr item =>
            let '(a, h') :=
              alloc h (CObj (<["stateItem" := item]> (own_props h state))) in
            inr (JRef a, h')
        end
      else inr (state, h)
  end.
End Reducer.

(** [const mapStateToProps = (state) => { return { stateItem: state.stateItem } }] *)
Definition mapStateToProps (h : heap) (state : jsval)
  : js_error + (jsval * heap) :=
  match get_prop h state "stateItem" with
  | inl e => inl e
  | inr item =>
      let '(a, h') := alloc h (CObj {["stateItem" := item]}) in
      inr (JRef a, h')
  end.

(** The state a call works on: the default parameter replaces [undefined]
    and nothing else. *)
Definition state_or (initialState state : jsval) : jsval :=
  match state with JUndefined => initialState | _ => state end.

(** A value the store can hold: a primitive, or a reference that is in
    use. *)
Definition in_heap (h : heap) (v : jsval) : Prop :=
  match v with
  | JRef a => is_Some (h !! a)
  | _ => True
  end.

(** A small store to run the reducer in: the module loaded, and two actions
    of the type the reducer knows ([ACTION] standing for the imported
    constant) next to one it does not know. *)
Module DemoStore.
Definition ACTION : jsval := JStr "ACTION".

Definition initialState : jsval := (load_reducer ∅).1.

Definition h0 : heap := (load_reducer ∅).2.

Definition set_x : nat * heap :=
  alloc h0 (CObj (<["type" := JStr "ACTION"]> {["stateItem" := JStr "x"]})).

Definition set_y : nat * heap :=
  alloc set_x.2 (CObj (<["type" := JStr "ACTION"]> {["stateItem" := JStr "y"]})).

Definition other : nat * heap :=
  alloc set_y.2 (CObj {["type" := JStr "@@redux/INIT"]}).

(** The store with the three action objects in it. *)
Definition h : heap := other.2.
End DemoStore.

(** * The runner *)

Section Runner.
Context {X : Type} (tool : oracle X).

Lemma run_recipe_stops root ls w l why w' evs :
  run_recipe tool root ls w = (Some (l, why), w', evs) →
  ∃ before after wl evs0,
    ls = before ++ l :: after
    ∧ run_recipe tool root before w = (None, wl, evs0)
    ∧ sh_status (exec tool l root wl) = Fail why
    ∧ w' = sh_world (exec tool l root wl)
    ∧ evs = evs0 ++ sh_events (exec tool l root wl).
Proof.
  revert w w' evs. induction ls as [|a ls IH]; intros w w' evs; simpl.
  - discriminate.
  - destruct (sh_status (exec tool a root w)) eqn:Ha.
    + destruct (run_recipe tool root ls (sh_world (exec tool a root w)))
        as [[v0 w0] evs0] eqn:Hr.
      intros [= -> -> <-].
      destruct (IH _ _ _ Hr) as (before & after & wl & e0 & -> & Hb & Hf & Hw & He).
      exists (a :: before), after, wl, (sh_events (exec tool a root w) ++ e0).
      simpl. rewrite Ha, Hb. subst. by rewrite (assoc_L (++)).
    + intros [= -> -> <- <-].
      exists [], ls, w, []. simpl. by rewrite Ha.
Qed.

Lemma run_steps_shape root ss w :
  let o := run_steps tool root ss w in
  match result o with
  | Success => started o = map fst ss
  | StepFailed t _ _ =>
      ∃ pre post, map fst ss = pre ++ t :: post ∧ started o = pre ++ [t]
  | NoRule _ => False
  end.
Proof.
  revert w. induction ss as [|[t ls] ss IH]; intros w; simpl; [done|].
  destruct (run_recipe tool root ls w) as [[v w'] evs].
  destruct v as [[l why]|]; simpl.
  - by exists [], (map fst ss).
  - specialize (IH w'). simpl in IH. unfold started in *. simpl.
    destruct (result (run_steps tool root ss w')).
    + by rewrite IH.
    + destruct IH as (pre & post & -> & ->). by exists (t :: pre), post.
    + done.
Qed.

(** Stop on the first failing line: the steps before ran to the end, the
    failing line is the last thing that ran, and the world is the one that
    line left behind. *)
Lemma run_steps_stops root ss w t l why :
  result (run_steps tool root ss w) = StepFailed t l why →
  ∃ pre ls post evs,
    ss = pre ++ (t, ls) :: post
    ∧ result (run_steps tool root pre w) = Success
    ∧ run_recipe tool root ls (final (run_steps tool root pre w))
      = (Some (l, why), final (run_steps tool root ss w), evs)
    ∧ log (run_steps tool root ss w)
      = log (run_steps tool root pre w) ++ [(t, evs)].
Proof.
  revert w. induction ss as [|[t0 ls0] ss IH]; intros w; simpl; [done|].
  destruct (run_recipe tool root ls0 w) as [[v w'] evs] eqn:Hr.
  destruct v as [[l0 why0]|]; simpl.
  - intros [= -> -> ->]. by exists [], ls0, ss, evs.
  - intros Hres. destruct (IH _ Hres) as (pre & ls & post & e & -> & Hp & Hf & Hl).
    exists ((t0, ls0) :: pre), ls, post, e. simpl. rewrite Hr. simpl.
    by rewrite Hl.
Qed.

Lemma make_no_rule rs root g w :
  plan rs g = None → make tool rs root g w = Outcome (NoRule g) w [].
Proof. unfold make. by intros ->. Qed.
End Runner.

Section Places.
Context {X : Type} (tool : oracle X).

Lemma exec_simple_cwd cwd w s :
  (exec_simple tool cwd w s).1.1 = Ok →
  (exec_simple tool cwd w s).1.2
  = match s with Cd d => resolve cwd d | _ => cwd end.
Proof.
  destruct s; simpl; try done.
  - by destruct (is_dir _ _).
  - by destruct (of_fs _ _).
  - by destruct (of_fs _ _).
  - by destruct (of_fs _ _).
  - by destruct (tool _ _ _ _).
Qed.

Lemma exec_places c cwd w :
  Forall (λ e, (ev_cwd e, ev_cmd e) ∈ (places c cwd).1)
         (sh_events (exec tool c cwd w))
  ∧ (sh_status (exec tool c cwd w) = Ok →
     sh_cwd (exec tool c cwd w) = (places c cwd).2).
Proof.
  revert cwd w. induction c as [s|a IHa b IHb|a IHa b IHb]; intros cwd w; simpl.
  - pose proof (exec_simple_cwd cwd w s) as Hs.
    destruct (exec_simple tool cwd w s) as [[st cwd'] w']. simpl in *.
    split; [|done]. repeat constructor.
  - destruct (IHa cwd w) as [Ea Ca].
    destruct (sh_status (exec tool a cwd w)) eqn:Hst; simpl.
    + rewrite Ca by done. destruct (IHb (places a cwd).2 (sh_world (exec tool a cwd w))) as [Eb Cb].
      split; [|done]. apply Forall_app. split.
      * eapply Forall_impl; [exact Ea|]. intros e He. apply elem_of_app. by left.
      * eapply Forall_impl; [exact Eb|]. intros e He. apply elem_of_app. by right.
    + rewrite Hst. split; [|done].
      eapply Forall_impl; [exact Ea|]. intros e He. apply elem_of_app. by left.
  - destruct (IHa cwd w) as [Ea _].
    destruct (IHb cwd (sh_world (exec tool a cwd w))) as [Eb _].
    split; [|done]. apply Forall_app. split.
    + eapply Forall_impl; [exact Ea|]. intros e He. apply elem_of_app. by left.
    + eapply Forall_impl; [exact Eb|]. intros e He. apply elem_of_app. by right.
Qed.

Lemma run_recipe_places root ls w :
  Forall (λ e, (ev_cwd e, ev_cmd e) ∈ ls ≫= λ l, (places l root).1)
         (run_recipe tool root ls w).2.
Proof.
  revert w. induction ls as [|l ls IH]; intros w; simpl; [constructor|].
  destruct (exec_places l root w) as [El _].
  destruct (sh_status (exec tool l root w)); simpl.
  - specialize (IH (sh_world (exec tool l root w))).
    destruct (run_recipe tool root ls _) as [[v w'] evs]. simpl in *.
    apply Forall_app. split.
    + eapply Forall_impl; [exact El|]. intros e He. apply elem_of_app. by left.
    + eapply Forall_impl; [exact IH|]. intros e He. apply elem_of_app. by right.
  - eapply Forall_impl; [exact El|]. intros e He. apply elem_of_app. by left.
Qed.

(** Whatever the tools do, a run starts a command only where its line puts
    it. *)
Lemma run_steps_places root ss w :
  Forall (λ te : string * list event,
            Forall (λ e, (te.1, ev_cwd e, ev_cmd e) ∈ step_places root ss) te.2)
         (log (run_steps tool root ss w)).
Proof.
  revert w. induction ss as [|[t ls] ss IH]; intros w; simpl; [constructor|].
  pose proof (run_recipe_places root ls w) as Hr.
  destruct (run_recipe tool root ls w) as [[v w'] evs]. simpl in Hr.
  assert (Forall (λ e, (t, ev_cwd e, ev_cmd e) ∈ step_places root ((t, ls) :: ss)) evs) as Hhere.
  { eapply Forall_impl; [exact Hr|]. intros e He. unfold step_places. simpl.
    apply elem_of_app. left.
    apply list_elem_of_bind in He as (l & He & Hl).
    apply list_elem_of_bind. exists l. split; [|done].
    apply (list_elem_of_fmap_2 (λ ps : path * simple, (t, ps.1, ps.2)) _ _ He). }
  destruct v as [[l why]|]; simpl.
  - by repeat constructor.
  - constructor; [done|].
    eapply Forall_impl; [apply IH|]. intros [t' evs'] He. simpl in *.
    eapply Forall_impl; [exact He|]. intros e Hin. unfold step_places. simpl.
    apply elem_of_app. by right.
Qed.

Lemma make_build k v root w :
  make tool (rules (makefile_of k) v) root "build" w
  = run_steps tool root (build_steps k v) w.
Proof. by destruct k. Qed.
End Places.

(** * The build sequence *)

Lemma nondecreasing_app_l (a b : list nat) :
  nondecreasing (a ++ b) = true → nondecreasing a = true.
Proof.
  induction a as [|x [|y a] IH]; simpl; try done.
  intros [H1 H2]%andb_true_iff. apply andb_true_iff. split; [done|].
  by apply IH.
Qed.

Lemma in_order_prefix rank (a b : list string) :
  in_order rank (a ++ b) → in_order rank a.
Proof.
  unfold in_order. rewrite omap_app, map_app. apply nondecreasing_app_l.
Qed.

(** C2, as the code has it: in both variants [build] goes through its
    prerequisites in the order the Makefile lists them and stops where a step
    fails: skeleton generation, then (JavaScript only) the formatting
    configuration, then the four package installations, then the template
    copy, then move/init/commit.  The formatting step comes before the
    package installations, not after them, and the TypeScript sequence has
    none. *)
Theorem build_runs_in_makefile_order (k : variant) {X} (tool : oracle X)
    (v : vars) (root : path) (w : world X) :
  let o := make tool (rules (makefile_of k) v) root "build" w in
  prereqs <$> find_rule (rules (makefile_of k) v) "build" = Some (build_order k)
  ∧ in_order build_rank (build_order k)
  ∧ in_order build_rank (started o)
  ∧ match result o with
    | Success => started o = build_order k ++ ["build"]
    | StepFailed t _ _ =>
        ∃ pre post,
          build_order k ++ ["build"] = pre ++ t :: post ∧ started o = pre ++ [t]
    | NoRule _ => False
    end.
Proof.
  intros o. assert (in_order build_rank (build_order k ++ ["build"])) as Hall
    by by destruct k.
  split; [by destruct k|]. split; [by destruct k|].
  subst o. rewrite make_build.
  pose proof (run_steps_shape tool root (build_steps k v) w) as Hshape.
  simpl in Hshape.
  assert (map fst (build_steps k v) = build_order k ++ ["build"]) as Hfst
    by by destruct k.
  rewrite Hfst in Hshape.
  destruct (result (run_steps tool root (build_steps k v) w)).
  - split; [|done]. by rewrite Hshape.
  - destruct Hshape as (pre & post & Hsplit & Hst). split; [|by exists pre, post].
    rewrite Hst. apply (in_order_prefix _ _ post).
    rewrite <-(assoc_L (++)). simpl. by rewrite <-Hsplit.
  - done.
Qed.

(** C2, as the specification words it, fails on the JavaScript Makefile: the
    run below starts [configure-prettier] before [install-redux]. *)
Lemma listed_order_counterexample :
  ¬ in_order listed_rank
      (started (make (Demo.tools true) (Js.rules Demo.v) Demo.root "build"
                     (Demo.w0 JavaScript))).
Proof. vm_compute. discriminate. Qed.

(** * Working directories *)

Lemma build_places_workdir (k : variant) (v : vars) (root : path) :
  Forall (λ x : string * path * simple,
            external x.2 = false ∨ x.1.2 = recipe_workdir root v x.1.1 x.2)
         (step_places root (build_steps k v)).
Proof.
  destruct k; vm_compute (step_places _ _);
    repeat (apply Forall_cons_2;
            [first [left; reflexivity | right; vm_compute; reflexivity]|]);
    apply Forall_nil_2.
Qed.

(** C6, as the code has it: skeleton generation, every command of
    [copy-files] and the [mv] of [git-commit] start in the invocation root
    (they reach the project through paths that begin with [NAME]); the
    package installations and the formatting configuration start in
    [NAME] below the invocation root; [git init], [git add] and
    [git commit] start in [PARENT_DIR/NAME]. *)
Theorem build_working_directories (k : variant) {X} (tool : oracle X)
    (v : vars) (root : path) (w : world X) :
  runs_at (recipe_workdir root v)
          (make tool (rules (makefile_of k) v) root "build" w).
Proof.
  unfold runs_at. rewrite make_build.
  eapply Forall_impl; [apply run_steps_places|]. intros [t evs] H. simpl in *.
  eapply Forall_impl; [exact H|]. intros e Hin. simpl in Hin.
  pose proof (build_places_workdir k v root) as Hs.
  rewrite Forall_forall in Hs. apply (Hs _ Hin).
Qed.

(** C6, as the specification words it, fails: in the run below [copy-files]
    starts [mkdir] in the invocation root [/work], which is neither
    [/work/demo] nor [/tmp/demo]. *)
Lemma claimed_workdir_counterexample :
  ¬ runs_within (claimed_workdirs Demo.root Demo.v)
      (make (Demo.tools true) (Js.rules Demo.v) Demo.root "build"
            (Demo.w0 JavaScript)).
Proof.
  unfold runs_within. intros H. rewrite Forall_forall in H.
  assert (Hc : ("copy-files",
                [Event ["work"] (Mkdir_p (rel ["demo"; "src"; "components"])) Ok;
                 Event ["work"] (Mkdir_p (rel ["demo"; "src"; "actions"])) Ok;
                 Event ["work"] (Mkdir_p (rel ["demo"; "src"; "reducers"])) Ok;
                 Event ["work"] (Cp (rel ["boilerplate-action.js"])
                                    (rel ["demo"; "src"; "actions"; "index.js"])) Ok;
                 Event ["work"] (Cp (rel ["boilerplate-reducer.js"])
                                    (rel ["demo"; "src"; "reducers"; "index.js"])) Ok;
                 Event ["work"] (Cp (rel ["boilerplate-app.js"])
                                    (rel ["demo"; "src"; "App.js"])) Ok;
                 Event ["work"] (Cp (rel ["boilerplate-index.js"])
                                    (rel ["demo"; "src"; "index.js"])) Ok])
               ∈ log (make (Demo.tools true) (Js.rules Demo.v) Demo.root "build"
                           (Demo.w0 JavaScript))).
  { vm_compute. do 6 apply list_elem_of_further. apply list_elem_of_here. }
  specialize (H _ Hc). simpl in H.
  apply Forall_cons in H as [[Hext|Hin] _]; [discriminate|].
  change (["work"] ∈ [["work"; "demo"]; ["tmp"; "demo"]]) in Hin.
  apply elem_of_cons in Hin as [Hin|Hin]; [discriminate|].
  apply elem_of_cons in Hin as [Hin|Hin]; [discriminate|].
  by apply elem_of_nil in Hin.
Qed.

(** * Goals other than [build] *)

Section Goals.
Context {X : Type} (tool : oracle X).

Lemma find_rule_None rs g : g ∉ map target rs → find_rule rs g = None.
Proof.
  unfold find_rule. induction rs as [|r rs IH]; simpl; [done|].
  intros Hn. case_bool_decide as Heq.
  - exfalso. apply Hn. rewrite <-Heq. apply list_elem_of_here.
  - apply IH. intros Hin. apply Hn. by apply list_elem_of_further.
Qed.

Lemma plan_unknown rs g : g ∉ map target rs → plan rs g = None.
Proof.
  intros Hn. unfold plan. simpl. by rewrite (find_rule_None _ _ Hn).
Qed.

Lemma started_run_steps root ss w t :
  t ∈ started (run_steps tool root ss w) → t ∈ map fst ss.
Proof.
  pose proof (run_steps_shape tool root ss w) as Hs. simpl in Hs.
  destruct (result (run_steps tool root ss w)).
  - by rewrite Hs.
  - destruct Hs as (pre & post & -> & ->).
    rewrite !elem_of_app, !elem_of_cons, elem_of_nil. tauto.
  - done.
Qed.

Lemma started_single root t ls w :
  started (run_steps tool root [(t, ls)] w) = [t].
Proof.
  unfold started. simpl.
  by destruct (run_recipe tool root ls w) as [[[[l why]|] w'] evs].
Qed.

Lemma events_run_steps root ss w (P : simple → Prop) :
  Forall (λ x : string * path * simple, P x.2) (step_places root ss) →
  Forall (λ e, P (ev_cmd e)) (events (run_steps tool root ss w)).
Proof.
  intros Hs. unfold events. apply Forall_concat, Forall_fmap.
  eapply Forall_impl; [apply run_steps_places|]. intros [t evs] H. simpl in *.
  eapply Forall_impl; [exact H|]. intros e Hin. simpl in Hin.
  rewrite Forall_forall in Hs. apply (Hs _ Hin).
Qed.

Lemma run_steps_success_recipes root ss w :
  result (run_steps tool root ss w) = Success →
  Forall (λ s : step, ∃ w1, (run_recipe tool root s.2 w1).1.1 = None) ss.
Proof.
  revert w. induction ss as [|[t ls] ss IH]; intros w; simpl; [constructor|].
  destruct (run_recipe tool root ls w) as [[r w'] evs] eqn:Hr.
  destruct r as [[l why]|]; simpl; [done|].
  intros Hres. constructor; [|by eapply IH].
  exists w. simpl. by rewrite Hr.
Qed.
End Goals.

(** * The TypeScript sequence has no formatting step *)

(** Replace [make rs root g w], for a goal that is known, by the run of the
    steps planned for it. *)
Ltac make_to_steps :=
  unfold make;
  repeat match goal with
         | |- context [plan ?rs ?g] =>
             let p := eval vm_compute in (plan rs g) in
             change (plan rs g) with p
         end;
  cbv iota beta.

(** [x ∉ l] for a closed list of strings. *)
Ltac not_in_closed :=
  apply (bool_decide_eq_false_1 _); vm_compute; reflexivity.

Lemma ts_targets (v : vars) :
  map target (Ts.rules v)
  = [ "help"; "create-react-app"; "configure-prettier"; "install-bootstrap";
      "install-redux"; "install-router"; "install-styled-components";
      "copy-files"; "git-commit"; "build" ].
Proof. reflexivity. Qed.

Lemma ts_other_goals {X} (tool : oracle X) (v : vars) (root : path)
    (w : world X) (goal : string) :
  goal ≠ "configure-prettier" →
  ("configure-prettier" ∉ started (make tool (Ts.rules v) root goal w))
  ∧ Forall (λ e, formatting_command (ev_cmd e) = false)
           (events (make tool (Ts.rules v) root goal w)).
Proof.
  intros Hne. destruct (decide (goal ∈ map target (Ts.rules v))) as [Hin|Hout].
  - rewrite ts_targets in Hin.
    repeat (apply elem_of_cons in Hin as [->|Hin]);
      [ .. | by apply elem_of_nil in Hin ];
      first
        [ exfalso; apply Hne; reflexivity
        | make_to_steps; split;
          [ intros Hs; apply started_run_steps in Hs; revert Hs;
            vm_compute (map _ _); not_in_closed
          | apply (events_run_steps tool root _ w (λ s, formatting_command s = false));
            vm_compute (step_places _ _);
            repeat (apply Forall_cons_2; [vm_compute; reflexivity|]);
            apply Forall_nil_2 ] ].
  - rewrite (make_no_rule _ _ _ _ _ (plan_unknown _ _ Hout)).
    split; [apply not_elem_of_nil | apply Forall_nil_2].
Qed.

(** C9: in the TypeScript Makefile [configure-prettier] is not among the
    prerequisites of [build]; a run of [build] never starts that step nor any
    of its commands (the prettier/husky installation, the jq/sponge merge,
    the husky hook registration), whatever the tools do; among all goals,
    only [configure-prettier] itself starts it. *)
Theorem ts_build_never_configures_prettier {X} (tool : oracle X) (v : vars)
    (root : path) (w : world X) :
  ("configure-prettier" ∉ build_order TypeScript)
  ∧ ("configure-prettier" ∉ started (make tool (Ts.rules v) root "build" w))
  ∧ Forall (λ e, formatting_command (ev_cmd e) = false)
           (events (make tool (Ts.rules v) root "build" w))
  ∧ started (make tool (Ts.rules v) root "configure-prettier" w)
    = ["configure-prettier"]
  ∧ ∀ goal,
      goal = "configure-prettier"
      ∨ (("configure-prettier" ∉ started (make tool (Ts.rules v) root goal w))
         ∧ Forall (λ e, formatting_command (ev_cmd e) = false)
                  (events (make tool (Ts.rules v) root goal w))).
Proof.
  assert ("build" ≠ "configure-prettier") as Hb by done.
  destruct (ts_other_goals tool v root w "build" Hb) as [H1 H2].
  split; [|split; [exact H1|split; [exact H2|split]]].
  - not_in_closed.
  - change (make tool (Ts.rules v) root "configure-prettier" w)
      with (run_steps tool root
              [("configure-prettier", configure_prettier_lines (NAME v))] w).
    apply started_single.
  - intros goal. destruct (decide (goal = "configure-prettier")) as [->|Hne];
      [by left|right]. by apply ts_other_goals.
Qed.

(** * Defaults of the variables *)

(** C8: with neither assignment on the command line, both Makefiles give
    [NAME] the text ['my_project'], which reaches every command as the word
    [my_project], and [PARENT_DIR] the text [.], the directory make was
    invoked in. *)
Theorem variable_defaults (k : variant) :
  let v := vars_of (makefile_of k) (CmdLine None None) in
  NAME_text (makefile_of k) = "'my_project'"
  ∧ PARENT_DIR_text (makefile_of k) = "."
  ∧ NAME v = "my_project"
  ∧ (∀ root : path, resolve root (PARENT_DIR v) = root)
  ∧ (∀ root : path, project root v = root ++ ["my_project"])
  ∧ (∀ root : path, moved_project root v = root ++ ["my_project"]).
Proof.
  destruct k; repeat split; try reflexivity;
    intros root; first [reflexivity | exact (app_nil_r root)].
Qed.

(** * A project directory that exists already *)

Lemma build_steps_head (k : variant) (v : vars) :
  ∃ rest,
    build_steps k v
    = ("create-react-app", [npx (generator_args k v)]) :: rest.
Proof. destruct k; by eexists. Qed.

(** C7, as the specification words it, fails: the Makefile does not look
    whether the directory [NAME] exists, it starts the generator and goes by
    its exit status.  With a generator that takes an empty directory, the
    TypeScript [build] started where [/work/demo] exists runs every step and
    ends in success, with the manifest written and the commit made. *)
Lemma existing_directory_counterexample :
  let w := w_empty_project TypeScript in
  let o := make accepting_tools (Ts.rules Demo.v) Demo.root "build" w in
  is_dir (files w) (project Demo.root Demo.v) = true
  ∧ result o = Success
  ∧ build_order TypeScript `prefix_of` started o
  ∧ files w !! ["work"; "demo"; "package.json"] = None
  ∧ files (final o) !! ["tmp"; "demo"; "package.json"] = Some (File "{}")
  ∧ Event ["tmp"; "demo"]
          (Tool "git" ["commit"; "-mInitial setup of Redux and friends"]) Ok
    ∈ events o.
Proof.
  vm_compute. split_and!; try reflexivity.
  - by eexists.
  - repeat first [apply list_elem_of_here | apply list_elem_of_further].
Qed.

(** C7, as the code has it: whether [build] stops on a directory [NAME] that
    exists is the generator's decision alone.  Whenever the generator's call
    ends with a non-zero status, [build] fails in [create-react-app]: the
    generator call is the only command ever started, no later step starts,
    no git command runs, and the world is the one the generator left (the
    one the build found when the generator changes nothing). *)
Theorem failing_generator_stops_build (k : variant) {X} (tool : oracle X)
    (v : vars) (root : path) (w : world X) :
  (tool "/usr/bin/npx" (generator_args k v) root w).1 = false →
  let o := make tool (rules (makefile_of k) v) root "build" w in
  let call := Tool "/usr/bin/npx" (generator_args k v) in
  result o = StepFailed "create-react-app" (Run call) ExitNonZero
  ∧ started o = ["create-react-app"]
  ∧ events o = [Event root call (Fail ExitNonZero)]
  ∧ final o = (tool "/usr/bin/npx" (generator_args k v) root w).2.
Proof.
  intros Hgen o call. subst o call. rewrite make_build.
  destruct (build_steps_head k v) as (rest & ->).
  unfold started, events. cbn [run_steps run_recipe exec exec_simple npx].
  destruct (tool "/usr/bin/npx" (generator_args k v) root w) as [zero w'].
  simpl in Hgen. subst zero. done.
Qed.

(** The theorem at work: the demo generator, and a disk on which
    [/work/demo] exists with a manifest of its own, which is left as it
    is. *)
Lemma failing_generator_stops_build_witness :
  let w := Demo.w_taken JavaScript in
  let o := make (Demo.tools true) (rules (makefile_of JavaScript) Demo.v)
                Demo.root "build" w in
  let call := Tool "/usr/bin/npx" (generator_args JavaScript Demo.v) in
  is_dir (files w) (project Demo.root Demo.v) = true
  ∧ files (final o) !! ["work"; "demo"; "package.json"] = Some (File "mine")
  ∧ result o = StepFailed "create-react-app" (Run call) ExitNonZero
  ∧ started o = ["create-react-app"]
  ∧ events o = [Event Demo.root call (Fail ExitNonZero)]
  ∧ final o
    = (Demo.tools true "/usr/bin/npx" (generator_args JavaScript Demo.v)
         Demo.root w).2.
Proof.
  split; [reflexivity|]. split; [vm_compute; reflexivity|].
  apply (failing_generator_stops_build JavaScript (Demo.tools true) Demo.v
           Demo.root (Demo.w_taken JavaScript)).
  vm_compute. reflexivity.
Defined.

(** * The finalize step of the JavaScript Makefile *)

Lemma run_steps_app {X} (tool : oracle X) (root : path) (ss1 ss2 : list step)
    (w : world X) :
  run_steps tool root (ss1 ++ ss2) w
  = let o1 := run_steps tool root ss1 w in
    match result o1 with
    | Success =>
        let o2 := run_steps tool root ss2 (final o1) in
        Outcome (result o2) (final o2) (log o1 ++ log o2)
    | _ => o1
    end.
Proof.
  revert w. induction ss1 as [|[t ls] ss1 IH]; intros w; simpl.
  - by destruct (run_steps tool root ss2 w).
  - destruct (run_recipe tool root ls w) as [[[[l why]|] w'] evs]; simpl.
    + done.
    + rewrite IH. simpl.
      by destruct (result (run_steps tool root ss1 w')) eqn:Hres; simpl;
        rewrite ?Hres.
Qed.

(** C3 fails on the JavaScript Makefile: the first line of [git-commit] is
    [mv -r ...], and [mv] has no option [-r].  In every world the step stops
    on that line: the project directory is not moved, [git init], [git add]
    and [git commit] are never started, and nothing is changed.  Hence no
    run of [build] ends in success, and none ever starts a git command. *)
Theorem js_git_commit_stops_at_mv {X} (tool : oracle X) (v : vars)
    (root : path) (w : world X) :
  let line := Run (Mv ["-r"] (rel [NAME v]) (PARENT_DIR v </> ["."])) in
  make tool (Js.rules v) root "git-commit" w
  = Outcome (StepFailed "git-commit" line (InvalidOption "-r")) w
            [("git-commit",
              [Event root (Mv ["-r"] (rel [NAME v]) (PARENT_DIR v </> ["."]))
                     (Fail (InvalidOption "-r"))])]
  ∧ result (make tool (Js.rules v) root "build" w) ≠ Success
  ∧ Forall (λ e, is_git (ev_cmd e) = false)
           (events (make tool (Js.rules v) root "build" w)).
Proof.
  intros line. split; [reflexivity|].
  set (before := steps_of (Js.rules v)
                   [ "create-react-app"; "configure-prettier"; "install-redux";
                     "install-router"; "install-bootstrap";
                     "install-styled-components"; "copy-files" ]).
  set (rest := steps_of (Js.rules v) ["git-commit"; "build"]).
  assert (∀ w1, run_steps tool root rest w1
                = Outcome (StepFailed "git-commit" line (InvalidOption "-r")) w1
                    [("git-commit",
                      [Event root (Mv ["-r"] (rel [NAME v]) (PARENT_DIR v </> ["."]))
                             (Fail (InvalidOption "-r"))])]) as Hrest
    by (intros w1; reflexivity).
  assert (Forall (λ e, is_git (ev_cmd e) = false)
                 (events (run_steps tool root before w))) as Hb.
  { apply (events_run_steps tool root before w (λ s, is_git s = false)).
    subst before. vm_compute (step_places _ _).
    repeat (apply Forall_cons_2; [reflexivity|]). apply Forall_nil_2. }
  change (make tool (Js.rules v) root "build" w)
    with (run_steps tool root (before ++ rest) w).
  rewrite run_steps_app. cbv zeta.
  destruct (result (run_steps tool root before w)) eqn:Hres.
  - rewrite Hrest. split; [done|]. unfold events in *. cbn [log].
    rewrite map_app, concat_app. apply Forall_app. split; [done|].
    by repeat constructor.
  - rewrite Hres. by split.
  - rewrite Hres. by split.
Qed.

(** The TypeScript Makefile has plain [mv]: in the demo world the step moves
    the project and starts the three git commands in the moved directory. *)
Example ts_git_commit_runs :
  let o := make (Demo.tools true) (Ts.rules Demo.v) Demo.root "build"
                (Demo.w0 TypeScript) in
  result o = Success
  ∧ files (final o) !! ["work"; "demo"] = None
  ∧ files (final o) !! ["tmp"; "demo"; "src"; "App.tsx"]
    = Some (File "boilerplate-app.tsx")
  ∧ filter (λ e, external (ev_cmd e) = true) (default [] (snd <$> log o !! 6))
    = [ Event ["work"] (Mv [] (rel ["demo"]) (parse_dir "/tmp")) Ok;
        Event ["tmp"; "demo"] (Tool "git" ["init"]) Ok;
        Event ["tmp"; "demo"] (Tool "git" ["add"; "."]) Ok;
        Event ["tmp"; "demo"]
              (Tool "git" ["commit"; "-mInitial setup of Redux and friends"]) Ok ].
Proof. vm_compute. repeat split. Qed.

(** With the default [PARENT_DIR = .] the [mv] of the TypeScript recipe asks
    to move the project onto itself and fails as well. *)
Example ts_default_parent_stops_at_mv :
  let v := vars_of Ts.mf (CmdLine (Some "demo") None) in
  let o := make (Demo.tools true) (Ts.rules v) Demo.root "build"
                (Demo.w0 TypeScript) in
  result o
  = StepFailed "git-commit" (Run (Mv [] (rel ["demo"]) (parse_dir "."))) SameFile.
Proof. vm_compute. reflexivity. Qed.

(** * A failing merge utility *)

(** The status of a pipeline is the status of its last command. *)
Lemma pipe_status {X} (tool : oracle X) (a b : cmd) (cwd : path) (w : world X) :
  sh_status (exec tool (Pipe a b) cwd w)
  = sh_status (exec tool b cwd (sh_world (exec tool a cwd w))).
Proof. reflexivity. Qed.

(** C1 fails on the JavaScript Makefile: in the run below [jq] ends with a
    non-zero status in [configure-prettier], yet the line counts as
    successful because [sponge], the last command of the pipeline, succeeds;
    the runner goes on to the hook registration and to every later step. *)
Theorem js_build_runs_on_after_jq_failure :
  let o := make (Demo.tools false) (Js.rules Demo.v) Demo.root "build"
                (Demo.w0 JavaScript) in
  Event ["work"; "demo"]
        (Tool "jq" ["-s"; ".[0] * .[1]"; "package.json"; "../prettier-config.json"])
        (Fail ExitNonZero) ∈ events o
  ∧ started o = build_order JavaScript
  ∧ Event ["work"; "demo"] (Tool "npm" ["install"; "redux"; "react-redux"]) Ok
    ∈ events o.
Proof.
  vm_compute. repeat split.
  - do 3 apply list_elem_of_further. apply list_elem_of_here.
  - do 8 apply list_elem_of_further. apply list_elem_of_here.
Qed.

(** * Where a failing command stops the run, and where it does not *)

Section FailFast.
Context {X : Type} (tool : oracle X).

(** A line that ran: its last command carries the status of the line; every
    command before it ended with status zero, unless it stands on the left
    of a pipe. *)
Lemma exec_shape (c : cmd) (cwd : path) (w : world X) :
  ∃ body e,
    sh_events (exec tool c cwd w) = body ++ [e]
    ∧ ev_status e = sh_status (exec tool c cwd w)
    ∧ Forall (λ e, ev_cmd e ∈ simples c) (sh_events (exec tool c cwd w))
    ∧ Forall (λ e, ev_status e = Ok ∨ ev_cmd e ∈ masked c) body.
Proof.
  revert cwd w. induction c as [s|a IHa b IHb|a IHa b IHb]; intros cwd w; simpl.
  - destruct (exec_simple tool cwd w s) as [[st cwd'] w']. simpl.
    exists [], (Event cwd s st). split_and!; [done..| |constructor].
    repeat constructor.
  - destruct (IHa cwd w) as (ba & ea & Ha & Hsa & Hca & Hba).
    destruct (sh_status (exec tool a cwd w)) eqn:Hst; simpl.
    + destruct (IHb (sh_cwd (exec tool a cwd w)) (sh_world (exec tool a cwd w)))
        as (bb & eb & Hb & Hsb & Hcb & Hbb).
      exists (ba ++ [ea] ++ bb), eb. rewrite Ha, Hb. split_and!.
      * by rewrite <-!(assoc_L (++)).
      * done.
      * rewrite <-Ha, <-Hb. apply Forall_app. split.
        -- eapply Forall_impl; [exact Hca|]. intros e He. apply elem_of_app. by left.
        -- eapply Forall_impl; [exact Hcb|]. intros e He. apply elem_of_app. by right.
      * apply Forall_app. split; [|apply Forall_cons; split; [by left|]].
        -- eapply Forall_impl; [exact Hba|]. intros e [He|He]; [by left|right].
           apply elem_of_app. by left.
        -- eapply Forall_impl; [exact Hbb|]. intros e [He|He]; [by left|right].
           apply elem_of_app. by right.
    + exists ba, ea. rewrite Hst. split_and!; [done..| |].
      * eapply Forall_impl; [exact Hca|]. intros e He. apply elem_of_app. by left.
      * eapply Forall_impl; [exact Hba|]. intros e [He|He]; [by left|right].
        apply elem_of_app. by left.
  - destruct (IHa cwd w) as (ba & ea & Ha & Hsa & Hca & Hba).
    destruct (IHb cwd (sh_world (exec tool a cwd w)))
      as (bb & eb & Hb & Hsb & Hcb & Hbb).
    exists (sh_events (exec tool a cwd w) ++ bb), eb. rewrite Hb. split_and!.
    + by rewrite <-(assoc_L (++)).
    + done.
    + rewrite <-Hb. apply Forall_app. split.
      * eapply Forall_impl; [exact Hca|]. intros e He. apply elem_of_app. by left.
      * eapply Forall_impl; [exact Hcb|]. intros e He. apply elem_of_app. by right.
    + apply Forall_app. split.
      * eapply Forall_impl; [exact Hca|]. intros e He. right.
        apply elem_of_app. by left.
      * eapply Forall_impl; [exact Hbb|]. intros e [He|He]; [by left|right].
        apply elem_of_app. by right.
Qed.

Lemma run_recipe_shape (root : path) (ls : list cmd) (w : world X) :
  let r := run_recipe tool root ls w in
  match r.1.1 with
  | None => Forall (λ e, ev_status e = Ok ∨ ev_cmd e ∈ ls ≫= masked) r.2
  | Some (l, why) =>
      ∃ body e,
        r.2 = body ++ [e] ∧ ev_status e = Fail why
        ∧ Forall (λ e, ev_status e = Ok ∨ ev_cmd e ∈ ls ≫= masked) body
  end.
Proof.
  revert w. induction ls as [|l ls IH]; intros w; simpl; [constructor|].
  destruct (exec_shape l root w) as (bl & el & Hl & Hsl & _ & Hbl).
  assert (Forall (λ e, ev_status e = Ok ∨ ev_cmd e ∈ masked l ++ (ls ≫= masked)) bl)
    as Hbl'.
  { eapply Forall_impl; [exact Hbl|]. intros e [He|He]; [by left|right].
    apply elem_of_app. by left. }
  destruct (sh_status (exec tool l root w)) eqn:Hst; simpl.
  - specialize (IH (sh_world (exec tool l root w))). simpl in IH.
    assert (Forall (λ e, ev_status e = Ok ∨ ev_cmd e ∈ masked l ++ (ls ≫= masked))
                   (sh_events (exec tool l root w))) as Hall.
    { rewrite Hl. apply Forall_app. split; [done|]. by repeat constructor. }
    destruct (run_recipe tool root ls _) as [[[[l' why]|] w'] evs]; simpl in *.
    + destruct IH as (body & e & -> & He & Hbody).
      exists (sh_events (exec tool l root w) ++ body), e.
      split_and!; [by rewrite (assoc_L (++))|done|].
      apply Forall_app. split; [done|].
      eapply Forall_impl; [exact Hbody|]. intros e' [He'|He']; [by left|right].
      apply elem_of_app. by right.
    + apply Forall_app. split; [done|].
      eapply Forall_impl; [exact IH|]. intros e' [He'|He']; [by left|right].
      apply elem_of_app. by right.
  - exists bl, el. by rewrite Hsl.
Qed.

(** A run that stopped: the failing command is the last one that was
    started; any command before it ended with status zero, unless it stands
    on the left of a pipe. *)
Lemma run_steps_fail_fast (root : path) (ss : list step) (w : world X) :
  let o := run_steps tool root ss w in
  match result o with
  | Success =>
      Forall (λ e, ev_status e = Ok ∨ ev_cmd e ∈ masked_in ss) (events o)
  | StepFailed _ _ why =>
      ∃ body e,
        events o = body ++ [e] ∧ ev_status e = Fail why
        ∧ Forall (λ e, ev_status e = Ok ∨ ev_cmd e ∈ masked_in ss) body
  | NoRule _ => False
  end.
Proof.
  revert w. induction ss as [|[t ls] ss IH]; intros w; simpl; [constructor|].
  pose proof (run_recipe_shape root ls w) as Hr. simpl in Hr.
  destruct (run_recipe tool root ls w) as [[[[l why]|] w'] evs];
    unfold events, masked_in in *; simpl in *.
  - destruct Hr as (body & e & -> & He & Hbody).
    exists body, e. rewrite app_nil_r. split_and!; [done..|].
    eapply Forall_impl; [exact Hbody|]. intros e' [He'|He']; [by left|right].
    apply elem_of_app. by left.
  - specialize (IH w').
    assert (Forall (λ e, ev_status e = Ok
                         ∨ ev_cmd e ∈ (ls ≫= masked) ++ (ss ≫= λ '(_, ls), ls ≫= masked))
                   evs) as Hevs.
    { eapply Forall_impl; [exact Hr|]. intros e' [He'|He']; [by left|right].
      apply elem_of_app. by left. }
    destruct (result (run_steps tool root ss w')).
    + apply Forall_app. split; [done|].
      eapply Forall_impl; [exact IH|]. intros e' [He'|He']; [by left|right].
      apply elem_of_app. by right.
    + destruct IH as (body & e & -> & He & Hbody).
      exists (evs ++ body), e. split_and!; [by rewrite (assoc_L (++))|done|].
      apply Forall_app. split; [done|].
      eapply Forall_impl; [exact Hbody|]. intros e' [He'|He']; [by left|right].
      apply elem_of_app. by right.
    + done.
Qed.

(** For [build]: the only command whose failure does not stop the run is
    the [jq] call of [configure-prettier], which only the JavaScript
    sequence contains. *)
Lemma build_masked (k : variant) (v : vars) :
  masked_in (build_steps k v)
  = match k with
    | JavaScript =>
        [Tool "jq" ["-s"; ".[0] * .[1]"; "package.json"; "../prettier-config.json"]]
    | TypeScript => []
    end.
Proof. by destruct k. Qed.

Lemma build_fail_fast (k : variant) (v : vars) (root : path) (w : world X) :
  let o := make tool (rules (makefile_of k) v) root "build" w in
  let jq_call :=
    Tool "jq" ["-s"; ".[0] * .[1]"; "package.json"; "../prettier-config.json"] in
  match result o with
  | Success =>
      Forall (λ e, ev_status e = Ok ∨ (k = JavaScript ∧ ev_cmd e = jq_call))
             (events o)
  | StepFailed _ _ why =>
      ∃ body e,
        events o = body ++ [e] ∧ ev_status e = Fail why
        ∧ Forall (λ e, ev_status e = Ok ∨ (k = JavaScript ∧ ev_cmd e = jq_call))
                 body
  | NoRule _ => False
  end.
Proof.
  intros o jq_call. subst o. rewrite make_build.
  pose proof (run_steps_fail_fast root (build_steps k v) w) as H.
  simpl in H. rewrite build_masked in H.
  assert (∀ e : event,
            ev_status e = Ok
            ∨ ev_cmd e ∈ match k with
                         | JavaScript => [jq_call]
                         | TypeScript => []
                         end →
            ev_status e = Ok ∨ (k = JavaScript ∧ ev_cmd e = jq_call)) as Himp.
  { intros e [He|He]; [by left|right]. destruct k.
    - by apply list_elem_of_singleton in He.
    - by apply elem_of_nil in He. }
  destruct (result (run_steps tool root (build_steps k v) w)).
  - eapply Forall_impl; [exact H|exact Himp].
  - destruct H as (body & e & Hev & He & Hbody). exists body, e.
    split_and!; [done..|]. eapply Forall_impl; [exact Hbody|exact Himp].
  - done.
Qed.
End FailFast.

(** * The file-system commands *)

Section FileSystem.
Implicit Types (fs : fsmap) (p q base : path) (cs : list string).

Lemma mkdir_p_spec fs base cs fs' :
  mkdir_p fs base cs = inr fs' →
  (∀ q, q ≠ [] → q `prefix_of` cs → fs' !! (base ++ q) = Some Dir)
  ∧ (∀ p e, fs !! p = Some e → fs' !! p = Some e)
  ∧ (∀ p, fs' !! p = fs !! p
          ∨ (fs !! p = None ∧ fs' !! p = Some Dir
             ∧ ∃ q, q ≠ [] ∧ q `prefix_of` cs ∧ p = base ++ q)).
Proof.
  revert fs base. induction cs as [|c cs IH]; intros fs base; simpl.
  - intros [= ->]. split; [|split]; [|done|by left].
    intros q Hq Hpre. by apply prefix_nil_inv in Hpre.
  - destruct (fs !! (base ++ [c])) as [[data|]|] eqn:Hc; [done| |].
    + intros Hrun. destruct (IH _ _ Hrun) as (Hd & Hk & Hc').
      split; [|split].
      * intros [|x q] Hq Hpre; [done|].
        apply prefix_cons_inv_1 in Hpre as Hx. subst x.
        apply prefix_cons_inv_2 in Hpre.
        destruct q as [|y q]; [by apply Hk|].
        rewrite (cons_middle c base (y :: q)).
        rewrite (assoc_L (++)). by apply Hd.
      * done.
      * intros p. destruct (Hc' p) as [Heq|(Hn & Hs & q & Hq & Hpre & ->)];
          [by left|right].
        split; [done|split; [done|]]. exists (c :: q).
        split; [done|split; [by apply prefix_cons|]].
        by rewrite <-(assoc_L (++)).
    + intros Hrun. destruct (IH _ _ Hrun) as (Hd & Hk & Hc').
      split; [|split].
      * intros [|x q] Hq Hpre; [done|].
        apply prefix_cons_inv_1 in Hpre as Hx. subst x.
        apply prefix_cons_inv_2 in Hpre.
        destruct q as [|y q]; [apply Hk, lookup_insert_eq|].
        rewrite (cons_middle c base (y :: q)).
        rewrite (assoc_L (++)). by apply Hd.
      * intros p e Hp. apply Hk. rewrite lookup_insert_ne; [done|].
        intros <-. by rewrite Hc in Hp.
      * intros p. destruct (decide (p = base ++ [c])) as [->|Hne].
        -- right. split; [done|split; [apply Hk, lookup_insert_eq|]].
           exists [c]. split; [done|split; [|done]].
           apply prefix_cons, prefix_nil.
        -- destruct (Hc' p) as [Heq|(Hn & Hs & q & Hq & Hpre & ->)].
           ++ left. by rewrite Heq, lookup_insert_ne.
           ++ right. rewrite lookup_insert_ne in Hn by done.
              split; [done|split; [done|]]. exists (c :: q).
              split; [done|split; [by apply prefix_cons|]].
              by rewrite <-(assoc_L (++)).
Qed.

Lemma mkdir_p_fails fs base cs why :
  mkdir_p fs base cs = inl why → why = NotADirectory.
Proof.
  revert fs base. induction cs as [|c cs IH]; intros fs base; simpl; [done|].
  destruct (fs !! (base ++ [c])) as [[data|]|]; [by intros [= <-]|apply IH..].
Qed.

Lemma mkdir_p_id fs base cs :
  (∀ q, q ≠ [] → q `prefix_of` cs → fs !! (base ++ q) = Some Dir) →
  mkdir_p fs base cs = inr fs.
Proof.
  revert base. induction cs as [|c cs IH]; intros base Hd; simpl; [done|].
  rewrite (Hd [c]); [|done|apply prefix_cons, prefix_nil].
  apply IH. intros q Hq Hpre. rewrite <-(assoc_L (++)). simpl.
  apply Hd; [done|by apply prefix_cons].
Qed.

Lemma mkdir_p_succeeds fs base cs :
  (∀ q, q ≠ [] → q `prefix_of` cs → ¬ is_file fs (base ++ q)) →
  ∃ fs', mkdir_p fs base cs = inr fs'.
Proof.
  revert fs base. induction cs as [|c cs IH]; intros fs base Hn; simpl; [by eexists|].
  assert (∀ fs2, (∀ p, is_file fs2 p → is_file fs p) →
                 ∃ fs', mkdir_p fs2 (base ++ [c]) cs = inr fs') as Hnext.
  { intros fs2 Hsub. apply IH. intros q Hq Hpre Hf. apply Hsub in Hf.
    rewrite <-(assoc_L (++)) in Hf. simpl in Hf.
    by apply (Hn (c :: q)); [|apply prefix_cons|]. }
  destruct (fs !! (base ++ [c])) as [[data|]|] eqn:Hc.
  - exfalso. apply (Hn [c]); [done|apply prefix_cons, prefix_nil|by exists data].
  - by apply Hnext.
  - apply Hnext. intros p [data Hp]. exists data.
    destruct (decide (p = base ++ [c])) as [->|Hne].
    + by rewrite lookup_insert_eq in Hp.
    + by rewrite lookup_insert_ne in Hp.
Qed.

Lemma is_dir_Some fs p : fs !! p = Some Dir → is_dir fs p = true.
Proof. intros H. destruct p; [done|]. simpl. by rewrite bool_decide_eq_true. Qed.

Lemma is_dir_insert_file fs t data p :
  fs !! t ≠ Some Dir → is_dir (<[t := File data]> fs) p = is_dir fs p.
Proof.
  intros Ht. destruct p as [|x p]; [done|]. simpl.
  destruct (decide (t = x :: p)) as [->|Hne].
  - rewrite lookup_insert_eq. rewrite !bool_decide_eq_false_2; done.
  - by rewrite lookup_insert_ne.
Qed.

Lemma parent_snoc p (x : string) : parent (p ++ [x]) = p.
Proof. apply removelast_last. Qed.

(** What a successful [cp] did. *)
Lemma cp_inr fs s d fs' :
  cp fs s d = inr fs' →
  ∃ data,
    fs !! s = Some (File data)
    ∧ fs !! cp_target fs s d ≠ Some Dir
    ∧ cp_target fs s d ≠ s
    ∧ is_dir fs (parent (cp_target fs s d)) = true
    ∧ fs' = <[cp_target fs s d := File data]> fs.
Proof.
  unfold cp. destruct (fs !! s) as [[data|]|] eqn:Hs; [|done..].
  intros H. exists data.
  assert (fs !! cp_target fs s d ≠ Some Dir) as Hnd.
  { intros Ht. by rewrite Ht in H. }
  assert ((if bool_decide (cp_target fs s d = s) then inl SameFile
           else if is_dir fs (parent (cp_target fs s d))
                then inr (<[cp_target fs s d := File data]> fs)
                else inl MissingDestDir) = inr fs') as H'.
  { by destruct (fs !! cp_target fs s d) as [[?|]|]. }
  clear H. case_bool_decide as Hne; [done|].
  destruct (is_dir fs (parent (cp_target fs s d))) eqn:Hp; [|done].
  by injection H' as <-.
Qed.

Lemma cp_is_dir fs s d fs' p :
  cp fs s d = inr fs' → is_dir fs' p = is_dir fs p.
Proof.
  intros (data & _ & Hnd & _ & _ & ->)%cp_inr. by apply is_dir_insert_file.
Qed.

(** The destination directory is all [cp] needs to be there. *)
Lemma cp_dest_dir fs s d :
  is_dir fs (parent d) = true → cp fs s d ≠ inl MissingDestDir.
Proof.
  intros Hd. unfold cp. destruct (fs !! s) as [[data|]|]; [|done..].
  assert (is_dir fs (parent (cp_target fs s d)) = true) as Ht.
  { unfold cp_target. destruct (is_dir fs d) eqn:Hdd; [|done].
    by rewrite parent_snoc. }
  rewrite Ht. destruct (fs !! cp_target fs s d) as [[?|]|];
    by try case_bool_decide.
Qed.

(** Copying again changes nothing. *)
Lemma cp_again fs s d fs' : cp fs s d = inr fs' → cp fs' s d = inr fs'.
Proof.
  intros Hcp. pose proof Hcp as (data & Hs & Hnd & Hne & Hp & ->)%cp_inr.
  set (t := cp_target fs s d) in *.
  assert (cp_target (<[t := File data]> fs) s d = t) as Ht.
  { unfold cp_target. by rewrite is_dir_insert_file. }
  unfold cp. rewrite lookup_insert_ne, Hs, Ht, lookup_insert_eq by done.
  rewrite bool_decide_eq_false_2, is_dir_insert_file, Hp by done.
  by rewrite insert_insert_eq.
Qed.

(** A copy that changes nothing still changes nothing after another copy
    wrote somewhere else. *)
Lemma cp_still fs s d s2 d2 fs2 :
  cp fs s d = inr fs →
  cp fs s2 d2 = inr fs2 →
  cp_target fs s2 d2 ≠ s →
  cp_target fs s2 d2 ≠ cp_target fs s d →
  cp fs2 s d = inr fs2.
Proof.
  intros Hcp H2 Hns Hnt.
  pose proof Hcp as (data & Hs & Hnd & Hne & Hp & Heq)%cp_inr.
  pose proof H2 as (data2 & Hs2 & Hnd2 & Hne2 & Hp2 & ->)%cp_inr.
  set (t := cp_target fs s d) in *. set (t2 := cp_target fs s2 d2) in *.
  assert (fs !! t = Some (File data)) as Ht.
  { rewrite Heq at 1. apply lookup_insert_eq. }
  assert (cp_target (<[t2 := File data2]> fs) s d = t) as Ht'.
  { unfold cp_target. by rewrite is_dir_insert_file. }
  unfold cp. rewrite lookup_insert_ne, Hs, Ht', lookup_insert_ne, Ht by done.
  rewrite bool_decide_eq_false_2, is_dir_insert_file, Hp by done.
  f_equal. apply insert_id. by rewrite lookup_insert_ne.
Qed.
End FileSystem.

(** * The two halves of [copy-files] on the file system *)

Lemma tables_well_formed (k : variant) :
  well_formed_tables (made_dirs k) (templates k).
Proof.
  destruct k; split; simpl;
    repeat first
      [ apply Forall_nil_2
      | apply Forall_cons_2
      | split
      | done
      | by (simpl; lia)
      | by (do 2 apply Exists_cons_tl; apply Exists_cons_hd; eexists; reflexivity)
      | by (apply Exists_cons_hd; eexists; reflexivity)
      | by (apply Exists_cons_tl, Exists_cons_hd; eexists; reflexivity)
      | by (apply (bool_decide_eq_false_1 _); vm_compute; reflexivity)
      | by (intros [rest Hr]; discriminate Hr) ].
Qed.

Section Copy.
Context (root : path) (nm : list string).
Implicit Types (fs : fsmap) (c : string * list string).
Implicit Types (cs : list (string * list string)) (dirs : list (list string)).

Lemma src_ne_dst (f : string) (D : list string) :
  2 ≤ length D → (root ++ nm) ++ D ≠ root ++ [f].
Proof.
  intros Hlen Heq. rewrite <-(assoc_L (++)) in Heq.
  apply app_inv_head in Heq. apply (f_equal length) in Heq.
  rewrite length_app in Heq. simpl in Heq. lia.
Qed.

Lemma src_ne_dst_in (f f2 : string) (D : list string) :
  2 ≤ length D → ((root ++ nm) ++ D) ++ [f2] ≠ root ++ [f].
Proof.
  intros Hlen Heq. rewrite <-!(assoc_L (++)) in Heq.
  apply app_inv_head in Heq. apply (f_equal length) in Heq.
  rewrite !length_app in Heq. simpl in Heq. lia.
Qed.

Lemma cp_target_cases fs (f : string) (d : path) :
  cp_target fs (root ++ [f]) d = d ∨ cp_target fs (root ++ [f]) d = d ++ [f].
Proof.
  unfold cp_target, basename. rewrite last_last.
  destruct (is_dir fs d); [by right|by left].
Qed.

(** ** [mkdir -p], line after line *)

Lemma mkdir_all_spec fs dirs fs1 :
  mkdir_all fs root nm dirs = inr fs1 →
  (∀ D q, D ∈ dirs → q ≠ [] → q `prefix_of` nm ++ D →
          fs1 !! (root ++ q) = Some Dir)
  ∧ (∀ p e, fs !! p = Some e → fs1 !! p = Some e)
  ∧ (∀ p, fs1 !! p = fs !! p
          ∨ (fs !! p = None ∧ fs1 !! p = Some Dir
             ∧ ∃ D q, D ∈ dirs ∧ q ≠ [] ∧ q `prefix_of` nm ++ D
                      ∧ p = root ++ q)).
Proof.
  revert fs. induction dirs as [|D ds IH]; intros fs; simpl.
  - intros [= ->]. split; [|split]; [|done|by left].
    intros D q HD. by apply elem_of_nil in HD.
  - destruct (mkdir_p fs root (nm ++ D)) as [why|fs0] eqn:Hmk; [done|].
    intros Hrest. destruct (mkdir_p_spec _ _ _ _ Hmk) as (Ha & Hb & Hc).
    destruct (IH _ Hrest) as (HA & HB & HC). split; [|split].
    + intros D' q [->|HD]%elem_of_cons Hq Hpre.
      * by apply HB, Ha.
      * by eapply HA.
    + intros p e Hp. by apply HB, Hb.
    + intros p.
      destruct (HC p) as [H1|(Hn1 & Hs1 & D1 & q1 & HD1 & Hq1 & Hp1 & Hpq1)];
        destruct (Hc p) as [H0|(Hn0 & Hs0 & q0 & Hq0 & Hp0 & Hpq)].
      * left. by rewrite H1.
      * right. split; [done|split; [by rewrite H1|]].
        exists D, q0. split; [apply list_elem_of_here|done].
      * right. split; [by rewrite <-H0|split; [done|]].
        exists D1, q1. split; [by apply list_elem_of_further|done].
      * by rewrite Hs0 in Hn1.
Qed.

Lemma mkdir_all_fails fs dirs why :
  mkdir_all fs root nm dirs = inl why → why = NotADirectory.
Proof.
  revert fs. induction dirs as [|D ds IH]; intros fs; simpl; [done|].
  destruct (mkdir_p fs root (nm ++ D)) as [why0|fs0] eqn:Hmk.
  - intros [= <-]. by eapply mkdir_p_fails.
  - apply IH.
Qed.

Lemma mkdir_all_id fs dirs :
  (∀ D q, D ∈ dirs → q ≠ [] → q `prefix_of` nm ++ D →
          fs !! (root ++ q) = Some Dir) →
  mkdir_all fs root nm dirs = inr fs.
Proof.
  induction dirs as [|D ds IH]; intros Hd; simpl; [done|].
  rewrite mkdir_p_id.
  - apply IH. intros D' q HD. apply Hd. by apply list_elem_of_further.
  - intros q. apply Hd, list_elem_of_here.
Qed.

Lemma mkdir_all_succeeds fs dirs :
  (∀ D q, D ∈ dirs → q ≠ [] → q `prefix_of` nm ++ D →
          ¬ is_file fs (root ++ q)) →
  ∃ fs1, mkdir_all fs root nm dirs = inr fs1.
Proof.
  revert fs. induction dirs as [|D ds IH]; intros fs Hn; simpl; [by eexists|].
  destruct (mkdir_p_succeeds fs root (nm ++ D)) as [fs0 Hmk].
  { intros q. apply Hn, list_elem_of_here. }
  rewrite Hmk. apply IH. intros D' q HD Hq Hpre [data Hf].
  apply (Hn D' q); [by apply list_elem_of_further|done..|].
  destruct (mkdir_p_spec _ _ _ _ Hmk) as (_ & _ & Hc).
  destruct (Hc (root ++ q)) as [H0|(_ & Hs0 & _)].
  - exists data. by rewrite <-H0.
  - by rewrite Hs0 in Hf.
Qed.

(** ** [cp], line after line *)

Lemma cp_all_is_dir fs cs fs' p :
  cp_all fs root (root ++ nm) cs = inr fs' → is_dir fs' p = is_dir fs p.
Proof.
  revert fs. induction cs as [|c cs IH]; intros fs; simpl; [by intros [= ->]|].
  destruct (cp fs _ _) as [why|fs1] eqn:Hcp; [done|].
  intros Hrest. rewrite (IH _ Hrest). by eapply cp_is_dir.
Qed.

Lemma cp_all_dirs fs cs fs' p :
  cp_all fs root (root ++ nm) cs = inr fs' →
  fs !! p = Some Dir → fs' !! p = Some Dir.
Proof.
  revert fs. induction cs as [|c cs IH]; intros fs; simpl; [by intros [= ->]|].
  destruct (cp fs _ _) as [why|fs1] eqn:Hcp; [done|].
  intros Hrest Hp. apply (IH _ Hrest).
  apply cp_inr in Hcp as (data & _ & Hnd & _ & _ & ->).
  rewrite lookup_insert_ne; [done|]. intros Heq. by rewrite Heq in Hnd.
Qed.

(** With the destination directories in place no copy can miss its
    directory. *)
Lemma cp_all_not_missing fs cs :
  Forall (λ c, is_dir fs (parent ((root ++ nm) ++ c.2)) = true) cs →
  cp_all fs root (root ++ nm) cs ≠ inl MissingDestDir.
Proof.
  revert fs. induction cs as [|c cs IH]; intros fs Hd; simpl; [done|].
  apply Forall_cons in Hd as [Hc Hd].
  destruct (cp fs _ _) as [why|fs1] eqn:Hcp.
  - intros [= ->]. by apply cp_dest_dir in Hcp.
  - apply IH. eapply Forall_impl; [exact Hd|]. intros c' Hc'. simpl in *.
    by rewrite (cp_is_dir _ _ _ _ _ Hcp).
Qed.

Lemma cp_all_keeps fs cs fs' (s d : path) :
  cp_all fs root (root ++ nm) cs = inr fs' →
  cp fs s d = inr fs →
  Forall (λ c, ∀ t, t = (root ++ nm) ++ c.2 ∨ t = ((root ++ nm) ++ c.2) ++ [c.1] →
                    t ≠ s ∧ t ≠ d ∧ t ≠ d ++ [basename s]) cs →
  cp fs' s d = inr fs'.
Proof.
  revert fs. induction cs as [|c cs IH]; intros fs; simpl; [by intros [= ->]|].
  destruct (cp fs (root ++ [c.1]) _) as [why|fs1] eqn:Hcp; [done|].
  intros Hrest Hst [Hc Hcs]%Forall_cons. apply (IH _ Hrest); [|done].
  destruct (Hc _ (cp_target_cases fs c.1 ((root ++ nm) ++ c.2)))
    as (H1 & H2 & H3).
  eapply cp_still; [done..|].
  unfold cp_target at 2. by destruct (is_dir fs d).
Qed.
End Copy.

Section CopyTwice.
Context (root : path) (nm : list string).
Implicit Types (fs : fsmap) (c : string * list string).
Implicit Types (cs : list (string * list string)).

Lemma cp_all_of_stable fs cs :
  Forall (λ c, cp fs (root ++ [c.1]) ((root ++ nm) ++ c.2) = inr fs) cs →
  cp_all fs root (root ++ nm) cs = inr fs.
Proof.
  induction cs as [|c cs IH]; simpl; [done|].
  intros [Hc Hcs]%Forall_cons. rewrite Hc. by apply IH.
Qed.

Lemma separate_keeps c c2 :
  2 ≤ length c2.2 → separate c c2 →
  ∀ t, t = (root ++ nm) ++ c2.2 ∨ t = ((root ++ nm) ++ c2.2) ++ [c2.1] →
       t ≠ root ++ [c.1]
       ∧ t ≠ (root ++ nm) ++ c.2
       ∧ t ≠ ((root ++ nm) ++ c.2) ++ [basename (root ++ [c.1])].
Proof.
  intros Hlen (H1 & H2 & H3) t. unfold basename. rewrite last_last.
  intros [->| ->]; split_and!.
  - by apply src_ne_dst.
  - intros Heq%app_inv_head. done.
  - rewrite <-(assoc_L (++) _ c.2). intros Heq%app_inv_head. done.
  - by apply src_ne_dst_in.
  - rewrite <-(assoc_L (++) _ c2.2). intros Heq%app_inv_head. done.
  - intros [Heq _]%app_inj_tail. by apply app_inv_head in Heq.
Qed.

Lemma cp_all_stable fs cs fs' :
  cp_all fs root (root ++ nm) cs = inr fs' →
  Forall (λ c, 2 ≤ length c.2) cs →
  all_separate cs →
  Forall (λ c, cp fs' (root ++ [c.1]) ((root ++ nm) ++ c.2) = inr fs') cs.
Proof.
  revert fs. induction cs as [|c cs IH]; intros fs; simpl; [constructor|].
  destruct (cp fs (root ++ [c.1]) _) as [why|fs1] eqn:Hcp; [done|].
  intros Hrest [Hlen Hlens]%Forall_cons [Hsep Hseps]. constructor.
  - eapply cp_all_keeps; [exact Hrest|by eapply cp_again|].
    apply Forall_forall. intros c2 Hin.
    rewrite Forall_forall in Hlens, Hsep.
    by apply separate_keeps; [apply Hlens|apply Hsep].
  - by eapply IH.
Qed.

(** Running the copies a second time changes nothing. *)
Lemma cp_all_again fs cs fs' :
  cp_all fs root (root ++ nm) cs = inr fs' →
  Forall (λ c, 2 ≤ length c.2) cs →
  all_separate cs →
  cp_all fs' root (root ++ nm) cs = inr fs'.
Proof. intros. by eapply cp_all_of_stable, cp_all_stable. Qed.

Lemma is_dir_false fs p : is_dir fs p = false → fs !! p ≠ Some Dir.
Proof. intros H Hp. by rewrite (is_dir_Some _ _ Hp) in H. Qed.

Lemma cp_fresh fs (s d : path) data :
  fs !! s = Some (File data) →
  is_dir fs d = false → d ≠ s → is_dir fs (parent d) = true →
  cp fs s d = inr (<[d := File data]> fs).
Proof.
  intros Hs Hd Hne Hp. unfold cp, cp_target. rewrite Hs, Hd.
  rewrite bool_decide_eq_false_2, Hp by done.
  apply is_dir_false in Hd. by destruct (fs !! d) as [[?|]|].
Qed.

(** Copies onto destinations that are not directories: all succeed, each
    destination ends up with the content of its source, nothing else
    changes. *)
Lemma cp_all_fresh fs cs :
  Forall (λ c, 2 ≤ length c.2) cs →
  all_separate cs →
  Forall (λ c, is_file fs (root ++ [c.1])) cs →
  Forall (λ c, is_dir fs ((root ++ nm) ++ c.2) = false) cs →
  Forall (λ c, is_dir fs (parent ((root ++ nm) ++ c.2)) = true) cs →
  ∃ fs',
    cp_all fs root (root ++ nm) cs = inr fs'
    ∧ Forall (λ c, fs' !! ((root ++ nm) ++ c.2) = fs !! (root ++ [c.1])) cs
    ∧ (∀ p, p ∉ ((λ c, (root ++ nm) ++ c.2) <$> cs) → fs' !! p = fs !! p).
Proof.
  revert fs. induction cs as [|c cs IH]; intros fs; simpl.
  { intros _ _ _ _ _. exists fs. by repeat split. }
  intros [Hlen Hlens]%Forall_cons [Hsep Hseps] [[data Hs] Hss]%Forall_cons
    [Hd Hds]%Forall_cons [Hp Hps]%Forall_cons.
  pose proof (src_ne_dst root nm c.1 c.2 Hlen) as Hne.
  rewrite (cp_fresh fs _ _ data) by done.
  pose proof (is_dir_false _ _ Hd) as Hnd.
  destruct (IH (<[(root ++ nm) ++ c.2 := File data]> fs)) as (fs' & Hrun & Hcopies & Hframe);
    [done|done| | | |].
  - eapply Forall_impl; [exact Hss|]. intros c2 [data2 H2]. exists data2.
    rewrite lookup_insert_ne; [done|]. by apply src_ne_dst.
  - eapply Forall_impl; [exact Hds|]. intros c2 H2. simpl in *.
    by rewrite is_dir_insert_file.
  - eapply Forall_impl; [exact Hps|]. intros c2 H2. simpl in *.
    by rewrite is_dir_insert_file.
  - exists fs'. split; [done|split].
    + constructor.
      * rewrite Hframe, lookup_insert_eq, Hs; [done|].
        intros (c2 & Heq & Hin)%list_elem_of_fmap.
        apply app_inv_head in Heq. rewrite Forall_forall in Hsep.
        destruct (Hsep _ Hin) as (H1 & _). by apply H1.
      * rewrite Forall_forall in Hcopies. apply Forall_forall.
        intros c2 Hin. rewrite (Hcopies _ Hin).
        rewrite lookup_insert_ne; [done|]. by apply src_ne_dst.
    + intros p Hp'. apply not_elem_of_cons in Hp' as [Hp1 Hp2].
      rewrite (Hframe _ Hp2). by rewrite lookup_insert_ne.
Qed.
End CopyTwice.

(** * The [copy-files] recipe as make runs it *)

Lemma with_files_id {X} (w : world X) : with_files w (files w) = w.
Proof. by destruct w. Qed.

Lemma filter_plain (D : list string) :
  "." ∉ D → filter (λ x, x ≠ ".") D = D.
Proof.
  induction D as [|x D IH]; [done|]. intros [Hx HD]%not_elem_of_cons.
  rewrite filter_cons_True by done. by rewrite IH.
Qed.

Lemma filter_name (N : string) (D : list string) :
  "." ∉ D →
  filter (λ x, x ≠ ".") (N :: D) = filter (λ x, x ≠ ".") [N] ++ D.
Proof.
  intros HD. change (N :: D) with ([N] ++ D).
  by rewrite filter_app, (filter_plain D).
Qed.

Section CopyRecipe.
Context {X : Type} (tool : oracle X) (root : path) (N : string).

Local Abbreviation nm := (filter (λ x, x ≠ ".") [N]).

Lemma run_recipe_cons l ls (w : world X) :
  (run_recipe tool root (l :: ls) w).1
  = match sh_status (exec tool l root w) with
    | Fail why => (Some (l, why), sh_world (exec tool l root w))
    | Ok => (run_recipe tool root ls (sh_world (exec tool l root w))).1
    end.
Proof.
  simpl. destruct (sh_status (exec tool l root w)); [|done].
  by destruct (run_recipe tool root ls _) as [[? ?] ?].
Qed.

Lemma exec_mkdir (D : list string) (w : world X) :
  "." ∉ D →
  sh_status (exec tool (Run (Mkdir_p (rel (N :: D)))) root w)
  = (of_fs w (mkdir_p (files w) root (nm ++ D))).1
  ∧ sh_world (exec tool (Run (Mkdir_p (rel (N :: D)))) root w)
    = (of_fs w (mkdir_p (files w) root (nm ++ D))).2.
Proof.
  intros HD. simpl. rewrite (filter_name N D HD).
  by destruct (of_fs w _).
Qed.

Lemma exec_cp (c : string * list string) (w : world X) :
  c.1 ≠ "." → "." ∉ c.2 →
  sh_status (exec tool (Run (Cp (rel [c.1]) (rel (N :: c.2)))) root w)
  = (of_fs w (cp (files w) (root ++ [c.1]) ((root ++ nm) ++ c.2))).1
  ∧ sh_world (exec tool (Run (Cp (rel [c.1]) (rel (N :: c.2)))) root w)
    = (of_fs w (cp (files w) (root ++ [c.1]) ((root ++ nm) ++ c.2))).2.
Proof.
  intros Hf HD. simpl. unfold resolve. simpl.
  rewrite (filter_name N c.2 HD), (filter_plain [c.1]).
  - rewrite (assoc_L (++)). by destruct (of_fs w _).
  - intros Heq%list_elem_of_singleton. by symmetry in Heq.
Qed.

Lemma run_cp_lines copies (w : world X) :
  Forall (λ c : string * list string, c.1 ≠ "." ∧ "." ∉ c.2) copies →
  let r := run_recipe tool root
             (Run <$> ((λ c : string * list string,
                          Cp (rel [c.1]) (rel (N :: c.2))) <$> copies)) w in
  match cp_all (files w) root (root ++ nm) copies with
  | inl why => ∃ l, r.1.1 = Some (l, why)
  | inr fs2 => r.1 = (None, with_files w fs2)
  end.
Proof.
  intros Hc. revert w.
  induction Hc as [|c cs [Hf HcD] Hcs IHc]; intros w.
  - simpl. by rewrite with_files_id.
  - cbv zeta. cbn [fmap list_fmap cp_all].
    rewrite run_recipe_cons.
    destruct (exec_cp c w Hf HcD) as [-> ->].
    destruct (cp (files w) (root ++ [c.1]) ((root ++ nm) ++ c.2)) as [why|fs1];
      cbn [of_fs fst snd].
    + by eexists.
    + apply (IHc (with_files w fs1)).
Qed.

(** The verdict and the world of the recipe are those of the two halves
    on the file system. *)
Lemma run_copy_lines dirs copies (w : world X) :
  Forall (λ D, "." ∉ D) dirs →
  Forall (λ c : string * list string, c.1 ≠ "." ∧ "." ∉ c.2) copies →
  let r := run_recipe tool root (copy_lines N dirs copies) w in
  match mkdir_all (files w) root nm dirs with
  | inl why => ∃ l, r.1.1 = Some (l, why)
  | inr fs1 =>
      match cp_all fs1 root (root ++ nm) copies with
      | inl why => ∃ l, r.1.1 = Some (l, why)
      | inr fs2 => r.1 = (None, with_files w fs2)
      end
  end.
Proof.
  intros Hd Hc. unfold copy_lines, copy_commands. rewrite fmap_app.
  revert w. induction Hd as [|D ds HD Hds IH]; intros w.
  - apply (run_cp_lines copies w Hc).
  - cbv zeta. cbn [fmap list_fmap app mkdir_all].
    rewrite run_recipe_cons.
    destruct (exec_mkdir D w HD) as [-> ->].
    destruct (mkdir_p (files w) root (nm ++ D)) as [why|fs0];
      cbn [of_fs fst snd].
    + by eexists.
    + specialize (IH (with_files w fs0)). simpl in IH.
      destruct (mkdir_all fs0 root nm ds) as [why|fs1]; [done|].
      by destruct (cp_all fs1 root (root ++ nm) copies).
Qed.

(** A recipe of one-command lines: after success every command was
    started and ended with status zero; after a failure every command that
    was started ended with status zero or with the failure reported. *)
Lemma run_simple_events (ss : list simple) (w : world X) :
  let r := run_recipe tool root (Run <$> ss) w in
  match r.1.1 with
  | None => r.2 = (λ s, Event root s Ok) <$> ss
  | Some (l, why) =>
      Forall (λ e, ev_status e = Ok ∨ ev_status e = Fail why) r.2
  end.
Proof.
  revert w. induction ss as [|s ss IH]; intros w; [done|].
  cbn [fmap list_fmap run_recipe exec].
  destruct (exec_simple tool root w s) as [[st cwd'] w1].
  cbn [sh_status sh_world sh_events]. destruct st as [|why].
  - specialize (IH w1). simpl in IH.
    destruct (run_recipe tool root (Run <$> ss) w1) as [[[[l why]|] w'] evs];
      simpl in *.
    + constructor; [by left|done].
    + by rewrite IH.
  - simpl. constructor; [by right|constructor].
Qed.
End CopyRecipe.

Section CopyTables.
Context (root : path) (N : string).
Context (dirs : list (list string)) (copies : list (string * list string)).
Context (Hwf : well_formed_tables dirs copies).

Local Abbreviation nm := (filter (λ x, x ≠ ".") [N]).

Lemma prefix_nm (q D : list string) :
  q ≠ [] → q `prefix_of` nm ++ D → ∃ q', q = nm ++ q' ∧ q' `prefix_of` D.
Proof.
  intros Hq. rewrite filter_cons, filter_nil. case_decide as HN; simpl.
  - destruct q as [|x q]; [done|]. intros Hpre.
    apply prefix_cons_inv_1 in Hpre as Hx. subst x.
    apply prefix_cons_inv_2 in Hpre. by exists q.
  - intros Hpre. by exists q.
Qed.

Lemma removelast_deep (D : list string) : 2 ≤ length D → removelast D ≠ [].
Proof. destruct D as [|a [|b D]]; simpl; [lia..|done]. Qed.

Lemma deep_nonempty (D : list string) : 2 ≤ length D → D ≠ [].
Proof. destruct D; simpl; [lia|done]. Qed.

(** After the [mkdir -p] lines every destination has its directory. *)
Lemma parents_made fs fs1 :
  mkdir_all fs root nm dirs = inr fs1 →
  Forall (λ c : string * list string,
            is_dir fs1 (parent ((root ++ nm) ++ c.2)) = true) copies.
Proof.
  intros (Ha & _ & _)%mkdir_all_spec.
  pose proof (wf_deep _ _ Hwf) as Hdeep.
  pose proof (wf_covered _ _ Hwf) as Hcov.
  rewrite Forall_forall in Hdeep, Hcov. apply Forall_forall. intros c Hin.
  specialize (Hdeep _ Hin). destruct (proj1 (Exists_exists _ _) (Hcov _ Hin))
    as (D' & HD' & Hpre).
  unfold parent. rewrite removelast_app by by apply deep_nonempty.
  apply is_dir_Some. rewrite <-(assoc_L (++)).
  apply (Ha D'); [done| |by apply prefix_app].
  intros [_ Hnil]%app_eq_nil. by apply removelast_deep in Hnil.
Qed.

(** No run of the recipe ends for want of a destination directory. *)
Lemma copy_lines_never_missing {X} (tool : oracle X) (w : world X) l :
  (run_recipe tool root (copy_lines N dirs copies) w).1.1
  ≠ Some (l, MissingDestDir).
Proof.
  pose proof (run_copy_lines tool root N dirs copies w
                (wf_dirs_plain _ _ Hwf) (wf_copies_plain _ _ Hwf)) as Hrun.
  simpl in Hrun.
  destruct (mkdir_all (files w) root nm dirs) as [why|fs1] eqn:Hmk.
  - destruct Hrun as [l' ->]. intros [= _ ->].
    by apply mkdir_all_fails in Hmk.
  - destruct (cp_all fs1 root (root ++ nm) copies) as [why|fs2] eqn:Hcp.
    + destruct Hrun as [l' ->]. intros [= _ ->].
      by apply (cp_all_not_missing root nm fs1 copies (parents_made _ _ Hmk)).
    + by rewrite Hrun.
Qed.

(** Running the recipe again after a successful run succeeds and leaves
    the world as it is. *)
Lemma copy_lines_twice {X} (tool : oracle X) (w w1 : world X) :
  (run_recipe tool root (copy_lines N dirs copies) w).1 = (None, w1) →
  (run_recipe tool root (copy_lines N dirs copies) w1).1 = (None, w1).
Proof.
  pose proof (run_copy_lines tool root N dirs copies w
                (wf_dirs_plain _ _ Hwf) (wf_copies_plain _ _ Hwf)) as Hrun.
  simpl in Hrun. intros Hfirst.
  destruct (mkdir_all (files w) root nm dirs) as [why|fs1] eqn:Hmk.
  { destruct Hrun as [l Hl]. by rewrite Hfirst in Hl. }
  destruct (cp_all fs1 root (root ++ nm) copies) as [why|fs2] eqn:Hcp.
  { destruct Hrun as [l Hl]. by rewrite Hfirst in Hl. }
  rewrite Hfirst in Hrun. injection Hrun as ->.
  pose proof (run_copy_lines tool root N dirs copies (with_files w fs2)
                (wf_dirs_plain _ _ Hwf) (wf_copies_plain _ _ Hwf)) as Hrun2.
  simpl in Hrun2.
  rewrite (mkdir_all_id root nm fs2 dirs) in Hrun2.
  - by rewrite (cp_all_again root nm fs1 copies fs2 Hcp
                  (wf_deep _ _ Hwf) (wf_separate _ _ Hwf)) in Hrun2.
  - intros D q HD Hq Hpre. apply (cp_all_dirs root nm fs1 copies fs2 _ Hcp).
    apply mkdir_all_spec in Hmk as (Ha & _ & _). by eapply Ha.
Qed.
End CopyTables.

Section CopyFresh.
Context (root : path) (N : string).
Context (dirs E : list (list string)) (copies : list (string * list string)).
Context (Hwf : well_formed_tables dirs copies).
Context (HE1 : ∀ D q, D ∈ dirs → q `prefix_of` D → q = [] ∨ q ∈ E).
Context (HE2 : ∀ D, D ∈ E → D ≠ [] ∧ ∃ D', D' ∈ dirs ∧ D `prefix_of` D').

Local Abbreviation nm := (filter (λ x, x ≠ ".") [N]).
Local Abbreviation P := (root ++ nm).

Lemma made_path (D q : list string) :
  D ∈ dirs → q ≠ [] → q `prefix_of` nm ++ D →
  root ++ q ∈ (λ D, P ++ D) <$> ([] :: E).
Proof.
  intros HD Hq Hpre. destruct (prefix_nm N q D Hq Hpre) as (q' & -> & Hq').
  rewrite (assoc_L (++)). apply list_elem_of_fmap_2.
  destruct (HE1 D q' HD Hq') as [->|Hin].
  - apply list_elem_of_here.
  - by apply list_elem_of_further.
Qed.

Lemma is_dir_false_2 (fs : fsmap) (p : path) :
  p ≠ [] → fs !! p ≠ Some Dir → is_dir fs p = false.
Proof.
  intros Hp Hn. destruct p; [done|]. simpl. by apply bool_decide_eq_false_2.
Qed.

(** With the sources there, nothing in the way of the directories and no
    directory where a destination goes, both halves succeed; the
    destinations hold the sources' contents, the directories exist, and no
    other path changes. *)
Lemma copy_tables_fresh (fs : fsmap) :
  Forall (λ c : string * list string, is_file fs (root ++ [c.1])) copies →
  Forall (λ D, ¬ is_file fs (P ++ D)) ([] :: E) →
  Forall (λ c : string * list string, fs !! (P ++ c.2) ≠ Some Dir) copies →
  ∃ fs1 fs2,
    mkdir_all fs root nm dirs = inr fs1
    ∧ cp_all fs1 root P copies = inr fs2
    ∧ Forall (λ c : string * list string,
                fs2 !! (P ++ c.2) = fs !! (root ++ [c.1])) copies
    ∧ Forall (λ D, fs2 !! (P ++ D) = Some Dir) E
    ∧ (∀ D, D ∈ dirs → nm ≠ [] → fs2 !! P = Some Dir)
    ∧ (∀ p, p ∉ ((λ c : string * list string, P ++ c.2) <$> copies) →
            p ∉ ((λ D, P ++ D) <$> ([] :: E)) →
            fs2 !! p = fs !! p).
Proof.
  intros Hsrc Hfree Hdst.
  rewrite Forall_forall in Hfree.
  destruct (mkdir_all_succeeds root nm fs dirs) as [fs1 Hmk].
  { intros D q HD Hq Hpre Hfile.
    pose proof (made_path D q HD Hq Hpre) as Hin.
    apply list_elem_of_fmap in Hin as (D0 & Heq & HD0).
    apply (Hfree _ HD0). by rewrite <-Heq. }
  pose proof (mkdir_all_spec _ _ _ _ _ Hmk) as (Ha & Hb & Hc).
  pose proof (wf_deep _ _ Hwf) as Hdeep.
  pose proof (wf_not_dirs _ _ Hwf) as Hnot.
  destruct (cp_all_fresh root nm fs1 copies) as (fs2 & Hcp & Hcopied & Hframe).
  - done.
  - apply (wf_separate _ _ Hwf).
  - eapply Forall_impl; [exact Hsrc|]. intros c [data Hc']. exists data.
    by apply Hb.
  - rewrite Forall_forall in Hdst, Hdeep, Hnot. apply Forall_forall.
    intros c Hin. apply is_dir_false_2.
    + intros [_ Hnil]%app_eq_nil. by apply (deep_nonempty _ (Hdeep _ Hin)).
    + destruct (Hc (P ++ c.2)) as [Heq|(_ & _ & D & q & HD & Hq & Hpre & Hpq)].
      * rewrite Heq. by apply Hdst.
      * intros _. rewrite <-(assoc_L (++)) in Hpq.
        apply app_inv_head in Hpq. subst q.
        apply prefix_app_inv in Hpre.
        specialize (Hnot _ Hin). rewrite Forall_forall in Hnot.
        by apply (Hnot D).
  - by eapply parents_made.
  - exists fs1, fs2. split; [done|split; [done|split; [|split; [|split]]]].
    + rewrite Forall_forall in Hcopied, Hsrc. apply Forall_forall.
      intros c Hin. rewrite (Hcopied _ Hin).
      destruct (Hsrc _ Hin) as [data Hdata]. rewrite Hdata. by apply Hb.
    + apply Forall_forall. intros D HD.
      destruct (HE2 D HD) as (Hne & D' & HD' & Hpre).
      apply (cp_all_dirs root nm fs1 copies fs2 _ Hcp).
      rewrite <-(assoc_L (++)). apply (Ha D'); [done| |by apply prefix_app].
      intros [_ Hnil]%app_eq_nil. done.
    + intros D HD Hnm. apply (cp_all_dirs root nm fs1 copies fs2 _ Hcp).
      apply (Ha D); [done..|]. by apply prefix_app_r.
    + intros p Hp1 Hp2. rewrite (Hframe _ Hp1).
      destruct (Hc p) as [Heq|(_ & _ & D & q & HD & Hq & Hpre & ->)]; [done|].
      exfalso. apply Hp2. by eapply made_path.
Qed.
End CopyFresh.

(** * The [copy-files] step *)

Lemma make_copy_files (k : variant) {X} (tool : oracle X) (v : vars)
    (root : path) (w : world X) :
  make tool (rules (makefile_of k) v) root "copy-files" w
  = run_steps tool root
      [("copy-files", copy_lines (NAME v) (made_dirs k) (templates k))] w.
Proof. by destruct k. Qed.

Lemma run_single {X} (tool : oracle X) (root : path) (t : string)
    (ls : list cmd) (w : world X) :
  let r := run_recipe tool root ls w in
  let o := run_steps tool root [(t, ls)] w in
  result o = match r.1.1 with
             | Some (l, why) => StepFailed t l why
             | None => Success
             end
  ∧ final o = r.1.2
  ∧ events o = r.2.
Proof.
  unfold events. simpl.
  destruct (run_recipe tool root ls w) as [[[[l why]|] w'] evs]; simpl;
    by rewrite app_nil_r.
Qed.

Lemma prefix_two (q : list string) (a b : string) :
  q `prefix_of` [a; b] → q = [] ∨ q = [a] ∨ q = [a; b].
Proof.
  destruct q as [|x [|y [|z q]]]; intros Hpre.
  - by left.
  - apply prefix_cons_inv_1 in Hpre as ->. by right; left.
  - apply prefix_cons_inv_1 in Hpre as Hx. apply prefix_cons_inv_2 in Hpre.
    apply prefix_cons_inv_1 in Hpre as Hy. subst. by right; right.
  - do 2 apply prefix_cons_inv_2 in Hpre. by apply prefix_nil_not in Hpre.
Qed.

Lemma ensured_dirs_prefixes (k : variant) (D q : list string) :
  D ∈ made_dirs k → q `prefix_of` D → q = [] ∨ q ∈ ensured_dirs k.
Proof.
  intros HD Hpre.
  destruct k; simpl in HD;
    repeat (apply elem_of_cons in HD as [->|HD]);
    try (by apply elem_of_nil in HD);
    apply prefix_two in Hpre as [->|[->| ->]];
    first [ by left
          | right; apply (bool_decide_unpack _); vm_compute; exact I ].
Qed.

Lemma ensured_dirs_made (k : variant) (D : list string) :
  D ∈ ensured_dirs k →
  D ≠ [] ∧ ∃ D', D' ∈ made_dirs k ∧ D `prefix_of` D'.
Proof.
  intros HD.
  destruct k; unfold ensured_dirs in HD; simpl in HD;
    repeat (apply elem_of_cons in HD as [->|HD]);
    try (by apply elem_of_nil in HD);
    (split; [done|]);
    first
      [ by (eexists; split; [apply list_elem_of_here|eexists; reflexivity])
      | by (eexists; split;
              [apply list_elem_of_further, list_elem_of_here|eexists; reflexivity])
      | by (eexists; split;
              [do 2 apply list_elem_of_further; apply list_elem_of_here
              |eexists; reflexivity]) ].
Qed.

(** C4: [copy-files] is the [mkdir -p] lines followed by four [cp] lines.
    Run in a world where the four templates lie in the invocation root as
    regular files, no regular file is in the way of a directory to make, and
    no destination is a directory, the step succeeds after starting exactly
    these commands in this order; each of the four destinations then holds
    the content of its template, whether or not a file was there before; the
    destination directories exist; and no other path and nothing outside the
    file system has changed. *)
Theorem copy_files_copies_templates (k : variant) {X} (tool : oracle X)
    (v : vars) (root : path) (w : world X) :
  let P := project root v in
  Forall (λ c : string * list string, is_file (files w) (root ++ [c.1]))
         (templates k) →
  Forall (λ D, ¬ is_file (files w) (P ++ D)) ([] :: ensured_dirs k) →
  Forall (λ c : string * list string, files w !! (P ++ c.2) ≠ Some Dir)
         (templates k) →
  let o := make tool (rules (makefile_of k) v) root "copy-files" w in
  result o = Success
  ∧ events o
    = (λ s, Event root s Ok)
        <$> copy_commands (NAME v) (made_dirs k) (templates k)
  ∧ length (templates k) = 4
  ∧ Forall (λ c : string * list string,
              files (final o) !! (P ++ c.2) = files w !! (root ++ [c.1]))
           (templates k)
  ∧ Forall (λ D, files (final o) !! (P ++ D) = Some Dir) (ensured_dirs k)
  ∧ (NAME v = "." ∨ files (final o) !! P = Some Dir)
  ∧ (∀ p, p ∉ ((λ c : string * list string, P ++ c.2) <$> templates k) →
          p ∉ ((λ D, P ++ D) <$> ([] :: ensured_dirs k)) →
          files (final o) !! p = files w !! p)
  ∧ outside (final o) = outside w.
Proof.
  intros P Hsrc Hfree Hdst o. subst o. rewrite make_copy_files.
  destruct (run_single tool root "copy-files"
              (copy_lines (NAME v) (made_dirs k) (templates k)) w)
    as (Hres & Hfin & Hev).
  rewrite Hres, Hfin, Hev. clear Hres Hfin Hev.
  pose proof (tables_well_formed k) as Hwf.
  destruct (copy_tables_fresh root (NAME v) (made_dirs k) (ensured_dirs k)
              (templates k) Hwf (ensured_dirs_prefixes k) (ensured_dirs_made k)
              (files w) Hsrc Hfree Hdst)
    as (fs1 & fs2 & Hmk & Hcp & Hcopied & Hdirs & Hroot & Hframe).
  pose proof (run_copy_lines tool root (NAME v) (made_dirs k) (templates k) w
                (wf_dirs_plain _ _ Hwf) (wf_copies_plain _ _ Hwf)) as Hrun.
  simpl in Hrun. rewrite Hmk, Hcp in Hrun.
  pose proof (run_simple_events tool root
                (copy_commands (NAME v) (made_dirs k) (templates k)) w) as Hevs.
  simpl in Hevs. fold (copy_lines (NAME v) (made_dirs k) (templates k)) in Hevs.
  destruct (run_recipe tool root
              (copy_lines (NAME v) (made_dirs k) (templates k)) w)
    as [[r w'] evs].
  simpl in *. injection Hrun as -> ->. simpl.
  split_and!; try done.
  - by destruct k.
  - destruct (decide (NAME v = ".")) as [HN|HN]; [by left|right].
    assert (∃ D, D ∈ made_dirs k) as [D HD]
      by (destruct k; eexists; apply list_elem_of_here).
    apply (Hroot D HD). by rewrite filter_cons_True.
Qed.

(** The theorem at work on the demo disk after skeleton generation, where
    [src/index.js] exists with the generator's content and is overwritten. *)
Lemma copy_files_copies_templates_witness :
  let P := project Demo.root Demo.v in
  let w := Demo.w_skeleton JavaScript in
  let o := make (Demo.tools true) (rules (makefile_of JavaScript) Demo.v)
                Demo.root "copy-files" w in
  files w !! (P ++ ["src"; "index.js"]) = Some (File "skeleton")
  ∧ result o = Success
  ∧ events o
    = (λ s, Event Demo.root s Ok)
        <$> copy_commands (NAME Demo.v) (made_dirs JavaScript) (templates JavaScript)
  ∧ length (templates JavaScript) = 4
  ∧ Forall (λ c : string * list string,
              files (final o) !! (P ++ c.2) = files w !! (Demo.root ++ [c.1]))
           (templates JavaScript)
  ∧ Forall (λ D, files (final o) !! (P ++ D) = Some Dir) (ensured_dirs JavaScript)
  ∧ (NAME Demo.v = "." ∨ files (final o) !! P = Some Dir)
  ∧ (∀ p, p ∉ ((λ c : string * list string, P ++ c.2) <$> templates JavaScript) →
          p ∉ ((λ D, P ++ D) <$> ([] :: ensured_dirs JavaScript)) →
          files (final o) !! p = files w !! p)
  ∧ outside (final o) = outside w.
Proof.
  split; [reflexivity|].
  apply (copy_files_copies_templates JavaScript (Demo.tools true) Demo.v
           Demo.root (Demo.w_skeleton JavaScript)).
  - repeat (apply Forall_cons_2; [eexists; vm_compute; reflexivity|]).
    apply Forall_nil_2.
  - repeat (apply Forall_cons_2;
            [intros [data Hdata]; vm_compute in Hdata; discriminate Hdata|]).
    apply Forall_nil_2.
  - repeat (apply Forall_cons_2; [vm_compute; discriminate|]).
    apply Forall_nil_2.
Defined.

(** C5: when a run of [copy-files] succeeded, a second run on the world it
    left succeeds as well and leaves that world exactly as it is; in
    particular every destination file keeps the content the first run gave
    it. *)
Theorem copy_files_twice (k : variant) {X} (tool : oracle X) (v : vars)
    (root : path) (w : world X) :
  let rs := rules (makefile_of k) v in
  result (make tool rs root "copy-files" w) = Success →
  let w1 := final (make tool rs root "copy-files" w) in
  let o2 := make tool rs root "copy-files" w1 in
  result o2 = Success
  ∧ final o2 = w1
  ∧ Forall (λ c : string * list string,
              files (final o2) !! (project root v ++ c.2)
              = files w1 !! (project root v ++ c.2))
           (templates k).
Proof.
  intros rs Hfirst w1 o2. subst rs w1 o2. revert Hfirst.
  rewrite !make_copy_files.
  set (ls := copy_lines (NAME v) (made_dirs k) (templates k)).
  destruct (run_single tool root "copy-files" ls w) as (Hres & Hfin & _).
  rewrite Hres, Hfin. intros Hfirst.
  destruct (run_recipe tool root ls w) as [[r w1] evs] eqn:Hrun.
  cbn [fst snd] in *. destruct r as [[l why]|]; [done|].
  pose proof (copy_lines_twice root (NAME v) (made_dirs k) (templates k)
                (tables_well_formed k) tool w w1) as Htwice.
  fold ls in Htwice. rewrite Hrun in Htwice. specialize (Htwice eq_refl).
  destruct (run_single tool root "copy-files" ls w1) as (Hres2 & Hfin2 & _).
  rewrite Hres2, Hfin2, Htwice. simpl. split_and!; [done..|].
  by apply Forall_forall.
Qed.

(** The theorem at work on the demo disk after skeleton generation. *)
Lemma copy_files_twice_witness :
  let rs := rules (makefile_of JavaScript) Demo.v in
  let w1 := final (make (Demo.tools true) rs Demo.root "copy-files"
                        (Demo.w_skeleton JavaScript)) in
  let o2 := make (Demo.tools true) rs Demo.root "copy-files" w1 in
  result (make (Demo.tools true) rs Demo.root "copy-files"
               (Demo.w_skeleton JavaScript)) = Success
  ∧ result o2 = Success
  ∧ final o2 = w1
  ∧ Forall (λ c : string * list string,
              files (final o2) !! (project Demo.root Demo.v ++ c.2)
              = files w1 !! (project Demo.root Demo.v ++ c.2))
           (templates JavaScript).
Proof.
  split; [vm_compute; reflexivity|].
  apply (copy_files_twice JavaScript (Demo.tools true) Demo.v Demo.root
           (Demo.w_skeleton JavaScript)).
  vm_compute. reflexivity.
Defined.

(** C10: run on its own in any world, [copy-files] never stops for want of
    a destination directory.  Its recipe is the [mkdir -p] lines followed by
    the [cp] lines; [mkdir -p] makes the whole chain of directories down to
    each operand, [NAME] and [NAME/src] included, so once the [mkdir -p]
    lines are through every [cp] finds the directory it writes into: no
    command the step starts ends with that failure, and the step never
    fails with it. *)
Theorem copy_files_never_misses_directory (k : variant) {X} (tool : oracle X)
    (v : vars) (root : path) (w : world X) :
  let o := make tool (rules (makefile_of k) v) root "copy-files" w in
  find_rule (rules (makefile_of k) v) "copy-files"
  = Some (Rule "copy-files" []
               (copy_lines (NAME v) (made_dirs k) (templates k)))
  ∧ (∀ t l, result o ≠ StepFailed t l MissingDestDir)
  ∧ Forall (λ e, ev_status e ≠ Fail MissingDestDir) (events o)
  ∧ (∀ fs1,
       mkdir_all (files w) root (filter (λ x, x ≠ ".") [NAME v]) (made_dirs k)
       = inr fs1 →
       Forall (λ c : string * list string,
                 is_dir fs1 (parent (project root v ++ c.2)) = true)
              (templates k)).
Proof.
  intros o. subst o. split; [by destruct k|].
  rewrite make_copy_files.
  set (ls := copy_lines (NAME v) (made_dirs k) (templates k)).
  destruct (run_single tool root "copy-files" ls w) as (Hres & _ & Hev).
  rewrite Hres, Hev.
  pose proof (copy_lines_never_missing root (NAME v) (made_dirs k)
                (templates k) (tables_well_formed k) tool w) as Hnever.
  fold ls in Hnever.
  pose proof (run_simple_events tool root
                (copy_commands (NAME v) (made_dirs k) (templates k)) w) as Hevs.
  simpl in Hevs. fold (copy_lines (NAME v) (made_dirs k) (templates k)) in Hevs.
  fold ls in Hevs.
  destruct (run_recipe tool root ls w) as [[r w'] evs]. simpl in *.
  split_and!.
  - intros t l. destruct r as [[l' why]|]; [|done].
    intros [= _ _ ->]. by apply (Hnever l').
  - destruct r as [[l' why]|].
    + eapply Forall_impl; [exact Hevs|]. intros e [->| ->]; [done|].
      intros [= ->]. by apply (Hnever l').
    + rewrite Hevs. apply Forall_fmap, Forall_forall. by intros s _.
  - intros fs1 Hmk.
    apply (parents_made root (NAME v) (made_dirs k) (templates k)
             (tables_well_formed k) (files w) fs1 Hmk).
Qed.

(** * The reducer *)

Lemma alloc_fresh (h : heap) (c : cell) : h !! (alloc h c).1 = None.
Proof. apply not_elem_of_dom, is_fresh. Qed.

Lemma alloc_lookup (h : heap) (c : cell) :
  (alloc h c).2 !! (alloc h c).1 = Some c.
Proof. apply lookup_insert_eq. Qed.

Lemma alloc_keeps (h : heap) (c x : cell) (a : nat) :
  h !! a = Some x → (alloc h c).2 !! a = Some x.
Proof.
  intros Ha. unfold alloc. simpl. rewrite lookup_insert_ne; [done|].
  intros Heq. pose proof (alloc_fresh h c) as Hf. simpl in Hf.
  by rewrite Heq, Ha in Hf.
Qed.

Lemma own_props_keeps (h h' : heap) (v : jsval) :
  (∀ a c, h !! a = Some c → h' !! a = Some c) →
  in_heap h v → own_props h' v = own_props h v.
Proof.
  intros Hsub Hv. destruct v as [| | | |a]; try done. simpl in *.
  destruct Hv as [c Hc]. by rewrite (Hsub _ _ Hc), Hc.
Qed.

Lemma get_prop_keeps (h h' : heap) (v : jsval) (k : string) :
  (∀ a c, h !! a = Some c → h' !! a = Some c) →
  in_heap h v → get_prop h' v k = get_prop h v k.
Proof.
  intros Hsub Hv. unfold get_prop. by rewrite (own_props_keeps h h' v Hsub Hv).
Qed.

Section ReducerFacts.
Context (ACTION initialState : jsval).

(** What an update returns. *)
Lemma mysite_update (h : heap) (state action item : jsval) :
  get_prop h action "type" = inr ACTION →
  get_prop h action "stateItem" = inr item →
  mysite ACTION initialState h state action
  = inr (JRef (fresh (dom h)),
         <[fresh (dom h) :=
             CObj (<["stateItem" := item]>
                     (own_props h (state_or initialState state)))]> h).
Proof.
  intros Hty Hitem. unfold mysite. rewrite Hty, Hitem.
  unfold strict_eq. by rewrite bool_decide_eq_true_2.
Qed.

Lemma get_prop_total (h : heap) (v : jsval) (k k' : string) (x : jsval) :
  get_prop h v k = inr x → ∃ y, get_prop h v k' = inr y.
Proof. destruct v; simpl; try done; by eexists. Qed.

(** The reducer throws exactly when the action is [undefined] or [null]:
    reading [action.type] is the only thing in it that can fail. *)
Theorem mysite_throws_iff (h : heap) (state action : jsval) :
  (∃ e, mysite ACTION initialState h state action = inl e)
  ↔ action = JUndefined ∨ action = JNull.
Proof.
  split.
  - intros [e He]. unfold mysite in He.
    destruct action; simpl in He; try (by left); try (by right);
      exfalso; by repeat case_match.
  - intros [-> | ->]; by exists TypeError.
Qed.

(** The reducer never changes an object that exists: whatever it returns,
    every cell of the store is as it was, and the value returned is in the
    store when the state it worked on was. *)
Theorem mysite_keeps_store (h : heap) (state action : jsval) :
  match mysite ACTION initialState h state action with
  | inl _ => True
  | inr (v, h') =>
      (∀ a c, h !! a = Some c → h' !! a = Some c)
      ∧ (in_heap h (state_or initialState state) → in_heap h' v)
  end.
Proof.
  unfold mysite. fold (state_or initialState state).
  destruct (get_prop h action "type") as [e|ty]; [done|].
  destruct (strict_eq ty ACTION).
  - destruct (get_prop h action "stateItem") as [e|item]; [done|].
    simpl. split.
    + intros a c Ha. by apply (alloc_keeps h _ c).
    + intros _. rewrite lookup_insert_eq. by eexists.
  - by split.
Qed.

(** Change detection by reference: an action of another type gives back the
    very state value and leaves the store alone; an action of type [ACTION]
    gives back a reference that was not in use, hence different from the
    state it was called with. *)
Theorem mysite_same_or_new (h : heap) (state action : jsval) :
  match get_prop h action "type" with
  | inl _ => True
  | inr ty =>
      if strict_eq ty ACTION then
        ∃ a h', mysite ACTION initialState h state action = inr (JRef a, h')
                ∧ h !! a = None
                ∧ ∃ fields, h' !! a = Some (CObj fields)
      else
        mysite ACTION initialState h state action
        = inr (state_or initialState state, h)
  end.
Proof.
  destruct (get_prop h action "type") as [e|ty] eqn:Hty; [done|].
  destruct (strict_eq ty ACTION) eqn:Heq.
  - apply bool_decide_eq_true in Heq as ->.
    destruct (get_prop_total h action "type" "stateItem" _ Hty) as [item Hitem].
    rewrite (mysite_update h state action item Hty Hitem).
    eexists _, _. split; [done|]. split.
    + apply not_elem_of_dom, is_fresh.
    + rewrite lookup_insert_eq. by eexists.
  - unfold mysite. fold (state_or initialState state). by rewrite Hty, Heq.
Qed.

(** What an update holds: [stateItem] reads as the action's [stateItem]
    ([undefined] when the action has none), and every other property of the
    state is carried over. *)
Theorem mysite_update_props (h : heap) (state action : jsval) :
  get_prop h action "type" = inr ACTION →
  ∃ a h',
    mysite ACTION initialState h state action = inr (JRef a, h')
    ∧ get_prop h' (JRef a) "stateItem" = get_prop h action "stateItem"
    ∧ ∀ k, k ≠ "stateItem" →
           own_props h' (JRef a) !! k
           = own_props h (state_or initialState state) !! k.
Proof.
  intros Hty.
  destruct (get_prop_total h action "type" "stateItem" _ Hty) as [item Hitem].
  rewrite (mysite_update h state action item Hty Hitem).
  eexists _, _. split; [done|]. split.
  - rewrite Hitem. unfold get_prop. simpl.
    by rewrite lookup_insert_eq, lookup_insert_eq.
  - intros k Hk. simpl. rewrite lookup_insert_eq. by rewrite lookup_insert_ne.
Qed.

(** Only the last update counts: two updates in a row leave an object with
    the same properties as the second update alone; in particular the same
    update twice is the update once. *)
Theorem mysite_last_update_wins (h : heap) (state a1 a2 : jsval) :
  get_prop h a1 "type" = inr ACTION →
  get_prop h a2 "type" = inr ACTION →
  in_heap h a2 →
  ∃ v1 h1 v2 h2 v h',
    mysite ACTION initialState h state a1 = inr (v1, h1)
    ∧ mysite ACTION initialState h1 v1 a2 = inr (v2, h2)
    ∧ mysite ACTION initialState h state a2 = inr (v, h')
    ∧ own_props h2 v2 = own_props h' v.
Proof.
  intros Hty1 Hty2 Hin.
  destruct (get_prop_total h a1 "type" "stateItem" _ Hty1) as [i1 Hi1].
  destruct (get_prop_total h a2 "type" "stateItem" _ Hty2) as [i2 Hi2].
  rewrite (mysite_update h state a1 i1 Hty1 Hi1).
  rewrite (mysite_update h state a2 i2 Hty2 Hi2).
  set (h1 := <[fresh (dom h) := _]> h).
  assert (∀ a c, h !! a = Some c → h1 !! a = Some c) as Hsub.
  { intros a c Ha. by apply (alloc_keeps h _ c). }
  assert (get_prop h1 a2 "type" = inr ACTION) as Hty2'
    by by rewrite (get_prop_keeps h h1 a2 _ Hsub Hin).
  assert (get_prop h1 a2 "stateItem" = inr i2) as Hi2'
    by by rewrite (get_prop_keeps h h1 a2 _ Hsub Hin).
  pose proof (mysite_update h1 (JRef (fresh (dom h))) a2 i2 Hty2' Hi2') as H2.
  eexists (JRef (fresh (dom h))), h1, _, _, _, _.
  split_and!; [done|exact H2|done|].
  simpl. rewrite !lookup_insert_eq. subst h1. rewrite lookup_insert_eq.
  by rewrite insert_insert_eq.
Qed.
End ReducerFacts.

(** The theorem at work: an update of the loaded initial state with the
    action [{type: ACTION, stateItem: "x"}]. *)
Lemma mysite_update_props_witness :
  ∃ a h',
    mysite DemoStore.ACTION DemoStore.initialState DemoStore.h JUndefined
           (JRef DemoStore.set_x.1) = inr (JRef a, h')
    ∧ get_prop h' (JRef a) "stateItem"
      = get_prop DemoStore.h (JRef DemoStore.set_x.1) "stateItem"
    ∧ ∀ k, k ≠ "stateItem" →
           own_props h' (JRef a) !! k
           = own_props DemoStore.h
               (state_or DemoStore.initialState JUndefined) !! k.
Proof.
  apply (mysite_update_props DemoStore.ACTION DemoStore.initialState
           DemoStore.h JUndefined (JRef DemoStore.set_x.1)).
  vm_compute. reflexivity.
Defined.

(** The theorem at work: [stateItem: "x"], then [stateItem: "y"]. *)
Lemma mysite_last_update_wins_witness :
  ∃ v1 h1 v2 h2 v h',
    mysite DemoStore.ACTION DemoStore.initialState DemoStore.h JUndefined
           (JRef DemoStore.set_x.1) = inr (v1, h1)
    ∧ mysite DemoStore.ACTION DemoStore.initialState h1 v1
             (JRef DemoStore.set_y.1) = inr (v2, h2)
    ∧ mysite DemoStore.ACTION DemoStore.initialState DemoStore.h JUndefined
             (JRef DemoStore.set_y.1) = inr (v, h')
    ∧ own_props h2 v2 = own_props h' v.
Proof.
  apply (mysite_last_update_wins DemoStore.ACTION DemoStore.initialState
           DemoStore.h JUndefined (JRef DemoStore.set_x.1)
           (JRef DemoStore.set_y.1)).
  - vm_compute. reflexivity.
  - vm_compute. reflexivity.
  - vm_compute. by eexists.
Defined.

(** * The initial state and the state mapping *)

(** Loading the module makes an object whose only property, [stateItem], is
    a new empty array; called without a state and with an action of another
    type, as a store does at its start, the reducer returns this very
    object and leaves the store alone. *)
Theorem initial_state (ACTION : jsval) (h : heap) (action : jsval) :
  let init := (load_reducer h).1 in
  let h0 := (load_reducer h).2 in
  (∃ a arr,
     init = JRef a ∧ h !! a = None ∧ h !! arr = None ∧ a ≠ arr
     ∧ h0 !! a = Some (CObj {["stateItem" := JRef arr]})
     ∧ h0 !! arr = Some (CArr [])
     ∧ ∀ b c, h !! b = Some c → h0 !! b = Some c)
  ∧ match get_prop h0 action "type" with
    | inl _ => True
    | inr ty =>
        if strict_eq ty ACTION then True
        else mysite ACTION init h0 JUndefined action = inr (init, h0)
    end.
Proof.
  intros init h0. split.
  - set (arr := fresh (dom h)).
    set (h1 := <[arr := CArr []]> h).
    set (a := fresh (dom h1)).
    assert (h !! arr = None) as Harr by apply not_elem_of_dom, is_fresh.
    assert (h1 !! a = None) as Ha by apply not_elem_of_dom, is_fresh.
    assert (a ≠ arr) as Hne.
    { intros Heq. subst h1. by rewrite Heq, lookup_insert_eq in Ha. }
    exists a, arr. split_and!; try done.
    + subst h1. by rewrite lookup_insert_ne in Ha.
    + apply lookup_insert_eq.
    + subst h0. simpl. fold arr. fold h1. fold a.
      rewrite lookup_insert_ne by done. apply lookup_insert_eq.
    + intros b c Hb. subst h0. simpl. fold arr. fold h1. fold a.
      assert (b ≠ arr) as Hb1 by (intros ->; by rewrite Hb in Harr).
      assert (h1 !! b = Some c) as Hb2 by (subst h1; by rewrite lookup_insert_ne).
      rewrite lookup_insert_ne; [done|]. intros <-. by rewrite Hb2 in Ha.
  - destruct (get_prop h0 action "type") as [e|ty] eqn:Hty; [done|].
    destruct (strict_eq ty ACTION) eqn:Heq; [done|].
    unfold mysite. rewrite Hty, Heq. reflexivity.
Qed.

(** [mapStateToProps] throws exactly on [undefined] and [null]; otherwise
    it changes no object and returns a new one whose only property is
    [stateItem], with the state's [stateItem] ([undefined] when the state
    has none): no other property of the state reaches the component. *)
Theorem mapStateToProps_only_stateItem (h : heap) (state : jsval) :
  match mapStateToProps h state with
  | inl _ => state = JUndefined ∨ state = JNull
  | inr (p, h') =>
      state ≠ JUndefined ∧ state ≠ JNull
      ∧ (∀ a c, h !! a = Some c → h' !! a = Some c)
      ∧ ∃ a, p = JRef a ∧ h !! a = None
             ∧ own_props h' p
               = {["stateItem" := default JUndefined
                                    (own_props h state !! "stateItem")]}
  end.
Proof.
  unfold mapStateToProps.
  destruct state as [| | | |a]; simpl; try (by left); try (by right);
    (split_and!; [done|done|intros x c Hx; by apply (alloc_keeps h _ c)|]);
    (eexists; split_and!; [done|apply not_elem_of_dom, is_fresh|]);
    by rewrite lookup_insert_eq.
Qed.

(** Reducer and mapping together: after an update the component's
    [stateItem] is the [stateItem] of the action. *)
Theorem props_after_update (ACTION initialState : jsval) (h : heap)
    (state action : jsval) :
  get_prop h action "type" = inr ACTION →
  ∃ v h1 p h2,
    mysite ACTION initialState h state action = inr (v, h1)
    ∧ mapStateToProps h1 v = inr (p, h2)
    ∧ get_prop h2 p "stateItem" = get_prop h action "stateItem".
Proof.
  intros Hty.
  destruct (get_prop_total h action "type" "stateItem" _ Hty) as [item Hitem].
  rewrite (mysite_update ACTION initialState h state action item Hty Hitem).
  eexists _, _, _, _. split; [done|]. split.
  - unfold mapStateToProps, get_prop. simpl. rewrite lookup_insert_eq.
    rewrite lookup_insert_eq. simpl. reflexivity.
  - rewrite Hitem. unfold get_prop. simpl.
    by rewrite lookup_insert_eq, lookup_singleton_eq.
Qed.

(** The theorem at work on the demo store. *)
Lemma props_after_update_witness :
  ∃ v h1 p h2,
    mysite DemoStore.ACTION DemoStore.initialState DemoStore.h JUndefined
           (JRef DemoStore.set_x.1) = inr (v, h1)
    ∧ mapStateToProps h1 v = inr (p, h2)
    ∧ get_prop h2 p "stateItem"
      = get_prop DemoStore.h (JRef DemoStore.set_x.1) "stateItem".
Proof.
  apply (props_after_update DemoStore.ACTION DemoStore.initialState
           DemoStore.h JUndefined (JRef DemoStore.set_x.1)).
  vm_compute. reflexivity.
Defined.

(** * The commands a run starts *)

Section Commands.
Context {X : Type} (tool : oracle X).

Lemma exec_commands (c : cmd) (cwd : path) (w : world X) :
  tame c = true →
  ev_cmd <$> sh_events (exec tool c cwd w) `prefix_of` simples c
  ∧ (sh_status (exec tool c cwd w) = Ok →
     ev_cmd <$> sh_events (exec tool c cwd w) = simples c).
Proof.
  revert cwd w. induction c as [s|a IHa b IHb|a IHa b IHb]; intros cwd w Ht.
  - simpl. destruct (exec_simple tool cwd w s) as [[st cwd'] w']. by split.
  - simpl in Ht. apply andb_true_iff in Ht as [Hta Htb]. simpl.
    destruct (IHa cwd w Hta) as [Hpa Hea].
    destruct (sh_status (exec tool a cwd w)) eqn:Hst; simpl.
    + destruct (IHb (sh_cwd (exec tool a cwd w)) (sh_world (exec tool a cwd w)) Htb)
        as [Hpb Heb].
      rewrite fmap_app, (Hea eq_refl). split.
      * by apply prefix_app.
      * intros Hok. by rewrite (Heb Hok).
    + rewrite Hst. split; [by apply prefix_app_r|done].
  - simpl in Ht. destruct a as [s| |]; [|done..]. simpl.
    destruct (exec_simple tool cwd w s) as [[st cwd'] w']. simpl.
    destruct (IHb cwd w' Ht) as [Hpb Heb]. split.
    + by apply prefix_cons.
    + intros Hok. f_equal. by apply Heb.
Qed.

Lemma run_recipe_commands (root : path) (ls : list cmd) (w : world X) :
  Forall (λ l, tame l = true) ls →
  let r := run_recipe tool root ls w in
  ev_cmd <$> r.2 `prefix_of` ls ≫= simples
  ∧ (r.1.1 = None → ev_cmd <$> r.2 = ls ≫= simples).
Proof.
  intros Ht. revert w. induction Ht as [|l ls Hl Hls IH]; intros w; simpl; [done|].
  destruct (exec_commands l root w Hl) as [Hp He].
  destruct (sh_status (exec tool l root w)); simpl.
  - specialize (IH (sh_world (exec tool l root w))). simpl in IH.
    destruct (run_recipe tool root ls _) as [[r w'] evs]. simpl in *.
    destruct IH as [Hp' He']. rewrite fmap_app, (He eq_refl). split.
    + by apply prefix_app.
    + intros Hr. by rewrite (He' Hr).
  - split; [by apply prefix_app_r|done].
Qed.

Lemma run_steps_commands (root : path) (ss : list step) (w : world X) :
  Forall (λ s : step, Forall (λ l, tame l = true) s.2) ss →
  let o := run_steps tool root ss w in
  ev_cmd <$> events o `prefix_of` commands ss
  ∧ (result o = Success → ev_cmd <$> events o = commands ss).
Proof.
  intros Ht. revert w.
  induction Ht as [|[t ls] ss Hl Hss IH]; intros w; simpl; [done|].
  pose proof (run_recipe_commands root ls w Hl) as Hr. simpl in Hr.
  destruct (run_recipe tool root ls w) as [[[[l why]|] w'] evs];
    unfold events, commands in *; simpl in *; destruct Hr as [Hp He].
  - rewrite app_nil_r. split; [by apply prefix_app_r|done].
  - specialize (IH w'). destruct IH as [Hp' He'].
    rewrite fmap_app, (He eq_refl). split.
    + by apply prefix_app.
    + intros Hr. by rewrite (He' Hr).
Qed.

(** [echo] cannot fail. *)
Lemma exec_echo_ok (c : cmd) (cwd : path) (w : world X) :
  Forall (λ e, ∀ m, ev_cmd e = Echo m → ev_status e = Ok)
         (sh_events (exec tool c cwd w)).
Proof.
  revert cwd w. induction c as [s|a IHa b IHb|a IHa b IHb]; intros cwd w; simpl.
  - destruct s; simpl; repeat case_match; simplify_eq;
      repeat constructor; simpl; by intros m [=].
  - destruct (sh_status (exec tool a cwd w)); simpl; [|done].
    apply Forall_app. by split.
  - apply Forall_app. by split.
Qed.

Lemma run_recipe_echo_ok (root : path) (ls : list cmd) (w : world X) :
  Forall (λ e, ∀ m, ev_cmd e = Echo m → ev_status e = Ok)
         (run_recipe tool root ls w).2.
Proof.
  revert w. induction ls as [|l ls IH]; intros w; simpl; [constructor|].
  pose proof (exec_echo_ok l root w) as Hl.
  destruct (sh_status (exec tool l root w)); simpl; [|done].
  specialize (IH (sh_world (exec tool l root w))).
  destruct (run_recipe tool root ls _) as [[r w'] evs]. simpl in *.
  apply Forall_app. by split.
Qed.

Lemma run_steps_echo_ok (root : path) (ss : list step) (w : world X) :
  Forall (λ e, ∀ m, ev_cmd e = Echo m → ev_status e = Ok)
         (events (run_steps tool root ss w)).
Proof.
  revert w. induction ss as [|[t ls] ss IH]; intros w; simpl; [constructor|].
  pose proof (run_recipe_echo_ok root ls w) as Hl.
  destruct (run_recipe tool root ls w) as [[[[l why]|] w'] evs];
    unfold events in *; simpl in *.
  - by rewrite app_nil_r.
  - apply Forall_app. split; [done|apply IH].
Qed.
End Commands.

Lemma prefix_snoc_cases {A} (l i : list A) (x : A) :
  l `prefix_of` i ++ [x] → l = i ++ [x] ∨ l `prefix_of` i.
Proof.
  intros [k Hk]. destruct k as [|y k _] using rev_ind.
  - left. by rewrite app_nil_r in Hk.
  - right. rewrite (assoc_L (++)) in Hk. apply app_inj_tail in Hk as [-> _].
    by exists k.
Qed.

Lemma build_steps_tame (k : variant) (v : vars) :
  Forall (λ s : step, Forall (λ l, tame l = true) s.2) (build_steps k v).
Proof.
  destruct k; vm_compute (build_steps _ _);
    repeat (apply Forall_cons_2;
            [repeat (apply Forall_cons_2; [reflexivity|]); apply Forall_nil_2|]);
    apply Forall_nil_2.
Qed.

Lemma build_programs_distinct (k : variant) (v : vars) :
  NoDup (filter (λ s, external s = true) (commands (build_steps k v))).
Proof.
  apply (NoDup_fmap_1 command_key).
  destruct k; vm_compute (command_key <$> _);
    apply (bool_decide_unpack _); vm_compute; exact I.
Qed.

(** In every run of [build] the commands started, in order, are an initial
    segment of the commands of the recipes as the Makefile lists them, and
    all of them exactly when the run succeeds; the confirmation [success]
    is printed only then; and no program call is started twice: nothing is
    retried. *)
Theorem build_commands_in_order (k : variant) {X} (tool : oracle X)
    (v : vars) (root : path) (w : world X) :
  let o := make tool (rules (makefile_of k) v) root "build" w in
  let planned := commands (build_steps k v) in
  ev_cmd <$> events o `prefix_of` planned
  ∧ (result o = Success ↔ ev_cmd <$> events o = planned)
  ∧ (Echo "success" ∈ ev_cmd <$> events o ↔ result o = Success)
  ∧ NoDup (filter (λ s, external s = true) (ev_cmd <$> events o)).
Proof.
  intros o planned.
  assert (planned = removelast planned ++ [Echo "success"]) as Hlast
    by by destruct k.
  assert (Echo "success" ∉ removelast planned) as Hinit.
  { intros Hin. apply (list_elem_of_fmap_2 command_key) in Hin. revert Hin.
    subst planned. destruct k; vm_compute (command_key <$> _);
      vm_compute (command_key _); not_in_closed. }
  pose proof (build_fail_fast tool k v root w) as Hff.
  pose proof (run_steps_echo_ok tool root (build_steps k v) w) as Hecho.
  destruct (run_steps_commands tool root (build_steps k v) w
              (build_steps_tame k v)) as [Hpre Hall].
  subst o. rewrite make_build in *. fold planned in Hpre, Hall.
  assert (ev_cmd <$> events (run_steps tool root (build_steps k v) w) = planned →
          result (run_steps tool root (build_steps k v) w) = Success) as Hback.
  { intros Heq. simpl in Hff.
    destruct (result (run_steps tool root (build_steps k v) w)); [done| |done].
    destruct Hff as (body & e & Hev & He & _). exfalso.
    rewrite Hev, fmap_app, Hlast in Heq. apply app_inj_tail in Heq as [_ Hcmd].
    rewrite Forall_forall in Hecho.
    assert (e ∈ events (run_steps tool root (build_steps k v) w)) as Hin.
    { rewrite Hev. apply elem_of_app. right. apply list_elem_of_here. }
    rewrite (Hecho e Hin "success") in He; done. }
  split_and!.
  - done.
  - by split.
  - split.
    + intros Hin. apply Hback. rewrite Hlast in Hpre.
      apply prefix_snoc_cases in Hpre as [Heq|[rest Hrest]]; [by rewrite Hlast|].
      exfalso. apply Hinit. rewrite Hrest. apply elem_of_app. by left.
    + intros Hres. rewrite (Hall Hres), Hlast. apply elem_of_app. right.
      apply list_elem_of_here.
  - pose proof (build_programs_distinct k v) as Hnd. fold planned in Hnd.
    destruct Hpre as [rest Hrest]. rewrite Hrest, filter_app in Hnd.
    by apply NoDup_app in Hnd as [Hnd _].
Qed.

(** * The targets that work inside the project directory *)

Lemma exec_head_cd {X} (tool : oracle X) (c : cmd) (d : operand) (cwd : path)
    (w : world X) :
  head_cd c = Some d →
  is_dir (files w) (resolve cwd d) = false →
  exec tool c cwd w
  = ShellResult (Fail NoSuchDirectory) cwd w
      [Event cwd (Cd d) (Fail NoSuchDirectory)].
Proof.
  intros Hc Hd. induction c as [s|a IHa b IHb|a IHa b IHb]; simpl in Hc.
  - destruct s; try done. injection Hc as ->. cbn [exec exec_simple].
    by rewrite Hd.
  - cbn [exec]. by rewrite (IHa Hc).
  - done.
Qed.

Lemma project_target_shape (k : variant) (v : vars) (g : string) :
  g ∈ project_targets →
  ∃ l ls,
    (∀ X (tool : oracle X) root w,
       make tool (rules (makefile_of k) v) root g w
       = run_steps tool root [(g, l :: ls)] w)
    ∧ head_cd l = Some (rel [NAME v])
    ∧ ∀ root,
        Forall (λ x : string * path * simple,
                  external x.2 = false ∨ x.1.2 = project root v)
               (step_places root [(g, l :: ls)]).
Proof.
  intros Hg. unfold project_targets in Hg.
  repeat (apply elem_of_cons in Hg as [->|Hg]);
    [ .. | by apply elem_of_nil in Hg ];
    destruct k;
    (eexists _, _; split; [intros; reflexivity|split; [reflexivity|]];
     intros root; vm_compute (step_places _ _);
     repeat (apply Forall_cons_2;
             [first [left; reflexivity | right; vm_compute; reflexivity]|]);
     apply Forall_nil_2).
Qed.

(** [configure-prettier] and the four [install-...] targets, each run on
    its own: every program they start is started in the project directory
    [NAME]; and when that directory does not exist the target stops at its
    [cd], starts no program at all (nothing is installed into the invocation
    root) and leaves the world as it is. *)
Theorem project_targets_stay_in_project (k : variant) {X} (tool : oracle X)
    (v : vars) (root : path) (w : world X) (g : string) :
  g ∈ project_targets →
  let o := make tool (rules (makefile_of k) v) root g w in
  Forall (λ e, external (ev_cmd e) = false ∨ ev_cwd e = project root v)
         (events o)
  ∧ (is_dir (files w) (project root v) = false →
     (∃ line, result o = StepFailed g line NoSuchDirectory)
     ∧ final o = w
     ∧ events o = [Event root (Cd (rel [NAME v])) (Fail NoSuchDirectory)]).
Proof.
  intros Hg o. subst o.
  destruct (project_target_shape k v g Hg) as (l & ls & Hmake & Hcd & Hplaces).
  rewrite Hmake. split.
  - unfold events. apply Forall_concat, Forall_fmap.
    eapply Forall_impl; [apply run_steps_places|]. intros [t evs] H. simpl in *.
    eapply Forall_impl; [exact H|]. intros e Hin. simpl in Hin.
    specialize (Hplaces root). rewrite Forall_forall in Hplaces.
    apply (Hplaces _ Hin).
  - intros Hdir. unfold events. simpl.
    rewrite (exec_head_cd tool l (rel [NAME v]) root w Hcd Hdir). simpl.
    split_and!; [by eexists|done..].
Qed.

(** The theorem at work: [install-redux] of the TypeScript Makefile on the
    demo disk, where no project has been generated. *)
Lemma project_targets_stay_in_project_witness :
  let o := make (Demo.tools true) (rules (makefile_of TypeScript) Demo.v)
                Demo.root "install-redux" (Demo.w0 TypeScript) in
  Forall (λ e, external (ev_cmd e) = false
               ∨ ev_cwd e = project Demo.root Demo.v)
         (events o)
  ∧ (∃ line, result o = StepFailed "install-redux" line NoSuchDirectory)
  ∧ final o = Demo.w0 TypeScript
  ∧ events o
    = [Event Demo.root (Cd (rel [NAME Demo.v])) (Fail NoSuchDirectory)].
Proof.
  destruct (project_targets_stay_in_project TypeScript (Demo.tools true)
              Demo.v Demo.root (Demo.w0 TypeScript) "install-redux")
    as [Hplaces Hmissing].
  - apply (bool_decide_unpack _). vm_compute. exact I.
  - split; [exact Hplaces|]. apply Hmissing. reflexivity.
Defined.

(** * What [copy-files] leaves alone *)

Lemma run_recipe_inv {X} (tool : oracle X) (root : path) (ls : list cmd)
    (R : world X → world X → Prop) (w : world X) :
  (∀ w0, R w0 w0) →
  (∀ w0 w1 w2, R w0 w1 → R w1 w2 → R w0 w2) →
  (∀ l w0, l ∈ ls → R w0 (sh_world (exec tool l root w0))) →
  R w (run_recipe tool root ls w).1.2.
Proof.
  intros Hrefl Htrans Hstep. revert w.
  induction ls as [|l ls IH]; intros w; simpl; [done|].
  pose proof (Hstep l w (list_elem_of_here _ _)) as Hl.
  destruct (sh_status (exec tool l root w)); simpl; [|done].
  assert (R (sh_world (exec tool l root w))
            (run_recipe tool root ls (sh_world (exec tool l root w))).1.2) as Hrest.
  { apply IH. intros l' w0 Hin. apply Hstep. by apply list_elem_of_further. }
  destruct (run_recipe tool root ls _) as [[r w'] evs]. simpl in *.
  by eapply Htrans.
Qed.

Lemma only_overwrites_refl (T : list path) (fs : fsmap) :
  only_overwrites T fs fs.
Proof. intros p e Hp. by left. Qed.

Lemma only_overwrites_trans (T : list path) (fs0 fs1 fs2 : fsmap) :
  only_overwrites T fs0 fs1 → only_overwrites T fs1 fs2 →
  only_overwrites T fs0 fs2.
Proof.
  intros H01 H12 p e Hp.
  destruct (H01 p e Hp) as [H1|(HT & Hf0 & [d1 Hf1])].
  - destruct (H12 p e H1) as [H2|(HT & Hf1 & Hf2)]; [by left|right].
    split_and!; [done| |done]. destruct Hf1 as [d Hd]. exists d.
    rewrite H1 in Hd. by rewrite Hp, Hd.
  - right. split_and!; [done..|].
    destruct (H12 p _ Hf1) as [H2|(_ & _ & Hf2)]; [by exists d1|done].
Qed.

Lemma mkdir_p_only_overwrites (T : list path) (fs fs' : fsmap) (base : path)
    (cs : list string) :
  mkdir_p fs base cs = inr fs' → only_overwrites T fs fs'.
Proof.
  intros (_ & Hkeep & _)%mkdir_p_spec p e Hp. left. by apply Hkeep.
Qed.

Lemma cp_only_overwrites (T : list path) (fs fs' : fsmap) (s d : path) :
  cp fs s d = inr fs' → cp_target fs s d ∈ T → only_overwrites T fs fs'.
Proof.
  intros (data & Hs & Hnd & Hne & Hp & ->)%cp_inr HT p e Hpe.
  destruct (decide (p = cp_target fs s d)) as [->|Hneq].
  - right. split_and!; [done| |].
    + destruct e as [data'|]; [by exists data'|done].
    + exists data. apply lookup_insert_eq.
  - left. by rewrite lookup_insert_ne.
Qed.

Section CopyKeeps.
Context {X : Type} (tool : oracle X) (root : path) (N : string).
Context (dirs : list (list string)) (copies : list (string * list string)).
Context (Hwf : well_formed_tables dirs copies).

Local Abbreviation nm := (filter (λ x, x ≠ ".") [N]).

Lemma copy_lines_only_overwrite (w : world X) :
  let w' := (run_recipe tool root (copy_lines N dirs copies) w).1.2 in
  outside w' = outside w
  ∧ only_overwrites (landing_places (root ++ nm) copies) (files w) (files w').
Proof.
  set (T := landing_places (root ++ nm) copies).
  apply (run_recipe_inv tool root (copy_lines N dirs copies)
           (λ w0 w1, outside w1 = outside w0
                     ∧ only_overwrites T (files w0) (files w1))).
  - intros w0. split; [done|apply only_overwrites_refl].
  - intros w0 w1 w2 [Ho1 H1] [Ho2 H2]. split; [congruence|].
    by eapply only_overwrites_trans.
  - intros l w0 Hin. unfold copy_lines, copy_commands in Hin.
    apply list_elem_of_fmap in Hin as (s & -> & Hs).
    apply elem_of_app in Hs as [Hs|Hs];
      apply list_elem_of_fmap in Hs as (x & -> & Hx).
    + pose proof (wf_dirs_plain _ _ Hwf) as Hplain.
      rewrite Forall_forall in Hplain.
      destruct (exec_mkdir tool root N x w0 (Hplain _ Hx)) as [_ ->].
      destruct (mkdir_p (files w0) root (nm ++ x)) as [why|fs'] eqn:Hmk; simpl.
      * split; [done|apply only_overwrites_refl].
      * split; [done|]. by eapply mkdir_p_only_overwrites.
    + pose proof (wf_copies_plain _ _ Hwf) as Hplain.
      rewrite Forall_forall in Hplain. destruct (Hplain _ Hx) as [Hf HD].
      destruct (exec_cp tool root N x w0 Hf HD) as [_ ->].
      destruct (cp (files w0) (root ++ [x.1]) ((root ++ nm) ++ x.2))
        as [why|fs'] eqn:Hcp; simpl.
      * split; [done|apply only_overwrites_refl].
      * split; [done|]. eapply cp_only_overwrites; [done|].
        subst T. unfold landing_places. apply list_elem_of_bind.
        exists x. split; [|done].
        destruct (cp_target_cases root (files w0) x.1 ((root ++ nm) ++ x.2))
          as [-> | ->].
        -- apply list_elem_of_here.
        -- apply list_elem_of_further, list_elem_of_here.
Qed.
End CopyKeeps.

(** Whether it succeeds or stops on the way, [copy-files] deletes nothing:
    every path that exists before exists after, with the same kind and
    content, except that a regular file at one of the four destinations (or
    at [destination/template] when the destination is a directory) may have
    been overwritten; what the tools keep outside the file system is
    untouched. *)
Theorem copy_files_only_overwrites (k : variant) {X} (tool : oracle X)
    (v : vars) (root : path) (w : world X) :
  let o := make tool (rules (makefile_of k) v) root "copy-files" w in
  outside (final o) = outside w
  ∧ only_overwrites (landing_places (project root v) (templates k))
                    (files w) (files (final o)).
Proof.
  intros o. subst o. rewrite make_copy_files.
  destruct (run_single tool root "copy-files"
              (copy_lines (NAME v) (made_dirs k) (templates k)) w)
    as (_ & -> & _).
  apply (copy_lines_only_overwrite tool root (NAME v) (made_dirs k)
           (templates k) (tables_well_formed k) w).
Qed.

(** * What a successful [copy-files] tells *)

Lemma is_dir_lookup (fs fs' : fsmap) (p : path) :
  fs' !! p = fs !! p → is_dir fs' p = is_dir fs p.
Proof. intros H. destruct p; [done|]. simpl. by rewrite H. Qed.

Lemma cp_all_sources (root : path) (nm : list string) (fs fs' : fsmap)
    (cs : list (string * list string)) :
  cp_all fs root (root ++ nm) cs = inr fs' →
  Forall (λ c : string * list string, 2 ≤ length c.2) cs →
  (∀ f : string, fs' !! (root ++ [f]) = fs !! (root ++ [f]))
  ∧ Forall (λ c : string * list string, is_file fs (root ++ [c.1])) cs.
Proof.
  revert fs. induction cs as [|c cs IH]; intros fs; simpl.
  { intros [= ->] _. by split. }
  destruct (cp fs (root ++ [c.1]) _) as [why|fs1] eqn:Hcp; [done|].
  intros Hrest [Hlen Hlens]%Forall_cons.
  destruct (IH _ Hrest Hlens) as [Hsame Hfiles].
  apply cp_inr in Hcp as (data & Hs & _ & _ & _ & Hfs1).
  assert (∀ f : string, fs1 !! (root ++ [f]) = fs !! (root ++ [f])) as Hstep.
  { intros f. rewrite Hfs1. apply lookup_insert_ne.
    destruct (cp_target_cases root fs c.1 ((root ++ nm) ++ c.2)) as [-> | ->].
    - by apply src_ne_dst.
    - by apply src_ne_dst_in. }
  split.
  - intros f. by rewrite Hsame, Hstep.
  - constructor; [by exists data|].
    eapply Forall_impl; [exact Hfiles|]. intros c' [data' Hc']. exists data'.
    by rewrite <-Hstep.
Qed.

Section CopySuccess.
Context (root : path) (N : string).
Context (dirs E : list (list string)) (copies : list (string * list string)).
Context (Hwf : well_formed_tables dirs copies).
Context (HE2 : ∀ D, D ∈ E → D ≠ [] ∧ ∃ D', D' ∈ dirs ∧ D `prefix_of` D').

Local Abbreviation nm := (filter (λ x, x ≠ ".") [N]).
Local Abbreviation P := (root ++ nm).

(** No [mkdir -p] line makes a directory where a template goes. *)
Lemma destination_not_made (fs fs1 : fsmap) (c : string * list string) :
  mkdir_all fs root nm dirs = inr fs1 → c ∈ copies →
  fs1 !! (P ++ c.2) = fs !! (P ++ c.2).
Proof.
  intros (_ & _ & Hc)%mkdir_all_spec Hin.
  destruct (Hc (P ++ c.2)) as [Heq|(_ & _ & D & q & HD & Hq & Hpre & Hpq)];
    [done|exfalso].
  rewrite <-(assoc_L (++)) in Hpq. apply app_inv_head in Hpq. subst q.
  apply prefix_app_inv in Hpre.
  pose proof (wf_not_dirs _ _ Hwf) as Hnot. rewrite Forall_forall in Hnot.
  specialize (Hnot _ Hin). rewrite Forall_forall in Hnot. by apply (Hnot D).
Qed.

Lemma copy_tables_success (fs fs1 fs2 : fsmap) :
  mkdir_all fs root nm dirs = inr fs1 →
  cp_all fs1 root P copies = inr fs2 →
  Forall (λ c : string * list string, is_file fs (root ++ [c.1])) copies
  ∧ Forall (λ D, ¬ is_file fs (P ++ D)) E
  ∧ Forall (λ c : string * list string,
              fs2 !! cp_target fs (root ++ [c.1]) (P ++ c.2)
              = fs !! (root ++ [c.1])) copies
  ∧ Forall (λ D, fs2 !! (P ++ D) = Some Dir) E.
Proof.
  intros Hmk Hcp.
  pose proof (mkdir_all_spec _ _ _ _ _ Hmk) as (Ha & Hb & Hc).
  pose proof (wf_deep _ _ Hwf) as Hdeep.
  destruct (cp_all_sources root nm fs1 fs2 copies Hcp Hdeep) as [Hsame Hfiles].
  assert (∀ (f : string) data, fs1 !! (root ++ [f]) = Some (File data) →
                    fs !! (root ++ [f]) = Some (File data)) as Hback.
  { intros f data Hf.
    destruct (Hc (root ++ [f])) as [Heq|(_ & Hd & _)]; [by rewrite <-Heq|].
    by rewrite Hd in Hf. }
  assert (∀ D, D ∈ E → fs1 !! (P ++ D) = Some Dir) as Hmade.
  { intros D HD. destruct (HE2 D HD) as (Hne & D' & HD' & Hpre).
    rewrite <-(assoc_L (++)). apply (Ha D'); [done| |by apply prefix_app].
    intros [_ Hnil]%app_eq_nil. done. }
  split_and!.
  - eapply Forall_impl; [exact Hfiles|]. intros c [data Hdata]. exists data.
    by apply Hback.
  - apply Forall_forall. intros D HD [data Hdata].
    apply Hb in Hdata. by rewrite (Hmade D HD) in Hdata.
  - pose proof (cp_all_stable root nm fs1 copies fs2 Hcp Hdeep
                  (wf_separate _ _ Hwf)) as Hstable.
    rewrite Forall_forall in Hstable. apply Forall_forall. intros c Hin.
    destruct (cp_inr _ _ _ _ (Hstable _ Hin))
      as (data & Hs & _ & _ & _ & Hfix).
    assert (fs2 !! cp_target fs2 (root ++ [c.1]) (P ++ c.2)
            = Some (File data)) as Hland.
    { transitivity
        ((<[cp_target fs2 (root ++ [c.1]) (P ++ c.2) := File data]> fs2)
           !! cp_target fs2 (root ++ [c.1]) (P ++ c.2)).
      - by f_equal.
      - apply lookup_insert_eq. }
    assert (cp_target fs2 (root ++ [c.1]) (P ++ c.2)
            = cp_target fs (root ++ [c.1]) (P ++ c.2)) as Htarget.
    { unfold cp_target.
      rewrite (cp_all_is_dir root nm fs1 copies fs2 _ Hcp).
      by rewrite (is_dir_lookup fs fs1 _ (destination_not_made fs fs1 c Hmk Hin)). }
    rewrite <-Htarget, Hland. symmetry. apply Hback. by rewrite <-Hsame.
  - apply Forall_forall. intros D HD.
    apply (cp_all_dirs root nm fs1 copies fs2 _ Hcp). by apply Hmade.
Qed.
End CopySuccess.

(** Whenever [copy-files] succeeds, the four templates were regular files
    in the invocation directory and no regular file was in the place of a
    directory the recipe makes; afterwards these directories exist and the
    content of each template is at its destination, or inside it under the
    template's own name when the destination was a directory to begin
    with. *)
Theorem copy_files_success_means (k : variant) {X} (tool : oracle X)
    (v : vars) (root : path) (w : world X) :
  let P := project root v in
  let o := make tool (rules (makefile_of k) v) root "copy-files" w in
  result o = Success →
  Forall (λ c : string * list string, is_file (files w) (root ++ [c.1]))
         (templates k)
  ∧ Forall (λ D, ¬ is_file (files w) (P ++ D)) (ensured_dirs k)
  ∧ Forall (λ c : string * list string,
              files (final o) !! cp_target (files w) (root ++ [c.1]) (P ++ c.2)
              = files w !! (root ++ [c.1]))
           (templates k)
  ∧ Forall (λ D, files (final o) !! (P ++ D) = Some Dir) (ensured_dirs k).
Proof.
  intros P o. subst o. rewrite make_copy_files.
  destruct (run_single tool root "copy-files"
              (copy_lines (NAME v) (made_dirs k) (templates k)) w)
    as (Hres & Hfin & _).
  rewrite Hres, Hfin. clear Hres Hfin.
  pose proof (tables_well_formed k) as Hwf.
  pose proof (run_copy_lines tool root (NAME v) (made_dirs k) (templates k) w
                (wf_dirs_plain _ _ Hwf) (wf_copies_plain _ _ Hwf)) as Hrun.
  simpl in Hrun.
  destruct (mkdir_all (files w) root _ (made_dirs k)) as [why|fs1] eqn:Hmk.
  { destruct Hrun as [l ->]. done. }
  destruct (cp_all fs1 root _ (templates k)) as [why|fs2] eqn:Hcp.
  { destruct Hrun as [l ->]. done. }
  rewrite Hrun. intros _.
  apply (copy_tables_success root (NAME v) (made_dirs k) (ensured_dirs k)
           (templates k) Hwf (ensured_dirs_made k) (files w) fs1 fs2 Hmk Hcp).
Qed.

(** The theorem at work where [src/App.js] of the project is a directory:
    the step succeeds and the application template ends up inside it. *)
Lemma copy_files_success_means_witness :
  let P := project Demo.root Demo.v in
  let o := make (Demo.tools true) (rules (makefile_of JavaScript) Demo.v)
                Demo.root "copy-files" w_app_dir in
  files (final o) !! (P ++ ["src"; "App.js"; "boilerplate-app.js"])
  = Some (File "boilerplate-app.js")
  ∧ Forall (λ c : string * list string,
              is_file (files w_app_dir) (Demo.root ++ [c.1]))
           (templates JavaScript)
  ∧ Forall (λ D, ¬ is_file (files w_app_dir) (P ++ D))
           (ensured_dirs JavaScript)
  ∧ Forall (λ c : string * list string,
              files (final o)
                !! cp_target (files w_app_dir) (Demo.root ++ [c.1]) (P ++ c.2)
              = files w_app_dir !! (Demo.root ++ [c.1]))
           (templates JavaScript)
  ∧ Forall (λ D, files (final o) !! (P ++ D) = Some Dir)
           (ensured_dirs JavaScript).
Proof.
  split; [vm_compute; reflexivity|].
  apply (copy_files_success_means JavaScript (Demo.tools true) Demo.v
           Demo.root w_app_dir).
  vm_compute. reflexivity.
Defined.

(** * [git-commit] with the default parent directory *)

Lemma mv_in_place (fs : fsmap) (root : path) (N : string) :
  N ≠ "." → is_dir fs root = true →
  mv fs [] (resolve root (rel [N])) (resolve root (parse_dir "."))
  = inl (match fs !! (root ++ [N]) with
         | None => NoSuchFile
         | Some _ => SameFile
         end).
Proof.
  intros HN Hroot.
  assert (resolve root (rel [N]) = root ++ [N]) as ->.
  { unfold resolve. simpl. by rewrite filter_cons_True, filter_nil. }
  assert (resolve root (parse_dir ".") = root) as ->.
  { unfold resolve. vm_compute (parse_dir "."). simpl.
    rewrite filter_cons_False, filter_nil by (intros H; by apply H).
    apply app_nil_r. }
  unfold mv. simpl. destruct (fs !! (root ++ [N])) as [e|]; [|done].
  unfold cp_target, basename. rewrite Hroot, last_last.
  by rewrite bool_decide_eq_true_2.
Qed.

(** The TypeScript [git-commit] with [PARENT_DIR] left at its default [.]:
    run where the invocation directory exists, the step always stops at its
    first line, [mv NAME .], which asks to move the project onto itself (or
    finds no project); nothing is changed and no [git] command is
    started. *)
Theorem ts_git_commit_in_place_fails {X} (tool : oracle X) (v : vars)
    (root : path) (w : world X) :
  PARENT_DIR v = parse_dir "." →
  NAME v ≠ "." →
  is_dir (files w) root = true →
  let o := make tool (Ts.rules v) root "git-commit" w in
  let line := Mv [] (rel [NAME v]) (parse_dir ".") in
  let why := match files w !! project root v with
             | None => NoSuchFile
             | Some _ => SameFile
             end in
  result o = StepFailed "git-commit" (Run line) why
  ∧ final o = w
  ∧ events o = [Event root line (Fail why)].
Proof.
  intros HP HN Hroot o line why. subst o.
  assert (project root v = root ++ [NAME v]) as Hproj.
  { unfold project, resolve. simpl. by rewrite filter_cons_True, filter_nil. }
  change (make tool (Ts.rules v) root "git-commit" w)
    with (run_steps tool root
            [("git-commit",
              Run (Mv [] (rel [NAME v]) (PARENT_DIR v))
                :: git_lines (NAME v) (PARENT_DIR v))] w).
  destruct (run_single tool root "git-commit"
              (Run (Mv [] (rel [NAME v]) (PARENT_DIR v))
                 :: git_lines (NAME v) (PARENT_DIR v)) w)
    as (Hres & Hfin & Hev).
  rewrite Hres, Hfin, Hev. clear Hres Hfin Hev.
  rewrite HP. cbn [run_recipe exec exec_simple].
  rewrite (mv_in_place (files w) root (NAME v) HN Hroot).
  subst why line. rewrite Hproj.
  by destruct (files w !! (root ++ [NAME v])).
Qed.

(** The theorem at work with the Makefile's own default for [PARENT_DIR],
    on the demo disk after skeleton generation. *)
Lemma ts_git_commit_in_place_fails_witness :
  let v := vars_of Ts.mf (CmdLine (Some "demo") None) in
  let w := Demo.w_skeleton TypeScript in
  let o := make (Demo.tools true) (Ts.rules v) Demo.root "git-commit" w in
  let line := Mv [] (rel ["demo"]) (parse_dir ".") in
  result o = StepFailed "git-commit" (Run line) SameFile
  ∧ final o = w
  ∧ events o = [Event Demo.root line (Fail SameFile)].
Proof.
  apply (ts_git_commit_in_place_fails (Demo.tools true)
           (vars_of Ts.mf (CmdLine (Some "demo") None)) Demo.root
           (Demo.w_skeleton TypeScript)).
  - reflexivity.
  - vm_compute. discriminate.
  - reflexivity.
Defined.

(** * A failing command ends the run *)

Lemma snoc_split {A} (body body' rest : list A) (e e' : A) :
  body ++ e :: rest = body' ++ [e'] →
  (rest = [] ∧ e = e') ∨ e ∈ body'.
Proof.
  intros Heq. destruct rest as [|x rest _] using rev_ind.
  - left. apply app_inj_tail in Heq as [_ ->]. done.
  - right. rewrite app_comm_cons, (assoc_L (++)) in Heq.
    apply app_inj_tail in Heq as [<- _].
    apply elem_of_app. right. apply list_elem_of_here.
Qed.

(** In a run of [build], a command that ends with a non-zero status is the
    last command the run starts, and the run fails with that command's
    reason.  The one exception is the [jq] call of the JavaScript
    [configure-prettier], whose status the pipeline hides; the TypeScript
    [build] has no exception. *)
Theorem build_stops_at_first_failure (k : variant) {X} (tool : oracle X)
    (v : vars) (root : path) (w : world X) (body rest : list event)
    (e : event) :
  let o := make tool (rules (makefile_of k) v) root "build" w in
  events o = body ++ e :: rest →
  ev_status e ≠ Ok →
  (rest = []
   ∧ ∃ t l why, result o = StepFailed t l why ∧ ev_status e = Fail why)
  ∨ (k = JavaScript
     ∧ ev_cmd e
       = Tool "jq" ["-s"; ".[0] * .[1]"; "package.json"; "../prettier-config.json"]).
Proof.
  intros o Hev Hfail. pose proof (build_fail_fast tool k v root w) as Hff.
  simpl in Hff. fold o in Hff.
  destruct (result o) as [|t l why|g]; [| |done].
  - right. rewrite Forall_forall in Hff.
    destruct (Hff e) as [Hok|Hjq]; [|done|done].
    rewrite Hev. apply elem_of_app. right. apply list_elem_of_here.
  - destruct Hff as (body' & e' & Hev' & Hwhy & Hbody).
    rewrite Hev in Hev'.
    apply snoc_split in Hev' as [[-> ->]|Hin].
    + left. split; [done|]. by exists t, l, why.
    + right. rewrite Forall_forall in Hbody.
      by destruct (Hbody e Hin) as [Hok|Hjq].
Qed.

(** The theorem at work on the demo disk with the project directory taken:
    the generator refuses, and its call is the only command of the run. *)
Lemma build_stops_at_first_failure_witness :
  let o := make (Demo.tools true) (rules (makefile_of TypeScript) Demo.v)
                Demo.root "build" (Demo.w_taken TypeScript) in
  let e := Event Demo.root
             (Tool "/usr/bin/npx"
                ["create-react-app"; "demo"; "--use-npm"; "--template";
                 "typescript"])
             (Fail ExitNonZero) in
  events o = [e]
  ∧ (([] : list event) = []
     ∧ ∃ t l why, result o = StepFailed t l why ∧ ev_status e = Fail why).
Proof.
  split; [vm_compute; reflexivity|].
  destruct (build_stops_at_first_failure TypeScript (Demo.tools true) Demo.v
              Demo.root (Demo.w_taken TypeScript) [] []
              (Event Demo.root
                 (Tool "/usr/bin/npx"
                    ["create-react-app"; "demo"; "--use-npm"; "--template";
                     "typescript"])
                 (Fail ExitNonZero)))
    as [H|[H _]].
  - vm_compute. reflexivity.
  - discriminate.
  - exact H.
  - discriminate H.
Defined.
